(** * Offline plot utilities: coordinate recovery and figure synthesis

    A shallow embedding of two scripts of the repository:

    - [demos/oed/scripts/extract_oed_star_metadata.py] (module [ExtractStar]):
      recovers the data coordinates of the star marker of each rendered frame
      from the axis tick labels found in the SVG markup;
    - [notes/assets/generate_partition_kernel_pullback_svg.py] (module
      [PartitionFigure]): lays out the panels of the partition-kernel figure
      and samples the curves, bins and bars drawn in it.

    Numbers.  Python's [float] is modelled twice.  In the modules
    [ExtractStar] and [PartitionFigure] it is idealised as a real number of
    the Standard Library ([R]): [+], [-], [*], [/] and the comparisons are the
    exact ones, so rounding, infinities and NaN are outside that model.  What
    is proved there holds in exact arithmetic, and of the scripts as they run
    wherever rounding does not enter: control flow, errors, the order of the
    ticks, the keys of the mapping.  In the module [Binary64] the functions
    that compute with floats are given again over binary64 numbers, the
    primitive floats of the kernel, whose operations round to nearest, ties
    to even, as the interpreter's do; [math.exp] is a parameter there.  The
    statements that rounding decides are settled on that model.  Python's
    [int] is [Z], [N] or [nat].

    Text.  A Python [str] is a [string] whose characters are the code points
    below 256.

    Exceptions.  A function that may raise returns a [result]; the exception
    carries the message of the [raise] statement it comes from. *)

From Stdlib Require Import Reals Lra Lia ZArith List String Ascii Sorted.
From Stdlib Require Floats Uint63.
From stdpp Require Import gmap strings pretty.
Import ListNotations.

#[local] Open Scope R_scope.

(** ** Python substrate shared by the two scripts *)

Module Py.

(** *** Exceptions and the result of a call *)

Inductive exn : Type :=
| ValueError (msg : string)
| IndexError (msg : string)
| SystemExit (msg : string).

Inductive result (A : Type) : Type :=
| Return (v : A)
| Raise (e : exn).

Arguments Return {A} v.
Arguments Raise {A} e.

#[global] Instance result_ret : MRet result := @Return.
#[global] Instance result_bind : MBind result := λ A B k c,
  match c with
  | Return v => k v
  | Raise e => Raise e
  end.

(** [[f(x) for x in l]] with a body that may raise: the first exception, in
    iteration order, leaves the comprehension. *)
Fixpoint list_comprehension {A B : Type} (f : A → result B) (l : list A)
  : result (list B) :=
  match l with
  | [] => Return []
  | x :: l' => y ← f x; ys ← list_comprehension f l'; Return (y :: ys)
  end.

(** *** Real numbers as values *)

#[global] Instance R_eq_dec : EqDecision R := Req_dec_T.
#[global] Instance Rle_rel_dec : RelDecision Rle := Rle_dec.
#[global] Instance Rlt_rel_dec : RelDecision Rlt := Rlt_dec.

(** The built-in [sum]: a left fold of [+] that starts from 0. *)
Definition sum (l : list R) : R := fold_left Rplus l 0.

(** [sorted(l, key=key)]: a stable sort; an element goes before the first
    element of the sorted tail that does not compare below it. *)
Fixpoint insert_by {A : Type} (key : A → R) (x : A) (l : list A) : list A :=
  match l with
  | [] => [x]
  | y :: l' =>
      if decide (key y < key x) then y :: insert_by key x l'
      else x :: y :: l'
  end.

Fixpoint sorted {A : Type} (key : A → R) (l : list A) : list A :=
  match l with
  | [] => []
  | x :: l' => insert_by key x (sorted key l')
  end.

(** [l[0]] and [l[-1]] *)
Definition item_first {A : Type} (l : list A) : result A :=
  match l with
  | x :: _ => Return x
  | [] => Raise (IndexError "list index out of range")
  end.

Definition item_last {A : Type} (l : list A) : result A :=
  match last l with
  | Some x => Return x
  | None => Raise (IndexError "list index out of range")
  end.

(** *** Characters and strings *)

Definition code (c : ascii) : N := N_of_ascii c.

(** [str.isspace] and the class [\s] of a str pattern, below code point 256. *)
Definition isspace (c : ascii) : bool :=
  let n := code c in
  ((9 <=? n) && (n <=? 13) || (28 <=? n) && (n <=? 32)
   || (n =? 133) || (n =? 160))%N.

(** The class [\d] of a str pattern and [[0-9]], below code point 256. *)
Definition isdigit (c : ascii) : bool :=
  let n := code c in ((48 <=? n) && (n <=? 57))%N.

(** Case folding of the letters A-Z, for patterns compiled with IGNORECASE
    whose literals are ASCII. *)
Definition lower (c : ascii) : ascii :=
  let n := code c in
  if ((65 <=? n) && (n <=? 90))%N then ascii_of_N (n + 32) else c.

Fixpoint lstrip (s : string) : string :=
  match s with
  | String c s' => if isspace c then lstrip s' else s
  | EmptyString => EmptyString
  end.

Fixpoint rstrip (s : string) : string :=
  match s with
  | String c s' =>
      match rstrip s' with
      | EmptyString => if isspace c then EmptyString else String c EmptyString
      | t => String c t
      end
  | EmptyString => EmptyString
  end.

(** [s.strip()] *)
Definition strip (s : string) : string := rstrip (lstrip s).

(** [re.split(r"\s+", s)]: the pieces between the maximal runs of white
    space; a run at either end leaves an empty piece there.  [cur] is the
    piece being read, [in_run] tells that the previous character was white
    space. *)
Fixpoint re_split_ws_go (s : string) (cur : string) (in_run : bool)
  : list string :=
  match s with
  | EmptyString => [cur]
  | String c s' =>
      if isspace c then
        if in_run then re_split_ws_go s' cur true
        else cur :: re_split_ws_go s' EmptyString true
      else re_split_ws_go s' (cur ++ String c EmptyString) false
  end.

Definition re_split_ws (s : string) : list string :=
  re_split_ws_go s EmptyString false.

(** ["," in token] and [token.split(",", 1)]: the text before the first
    comma and the text after it. *)
Fixpoint split_comma (s : string) : option (string * string) :=
  match s with
  | EmptyString => None
  | String c s' =>
      if Ascii.eqb c "," then Some (EmptyString, s')
      else match split_comma s' with
           | Some (xs, ys) => Some (String c xs, ys)
           | None => None
           end
  end.

(** [s.replace(old, new)] for a one-character [old]: every occurrence, from
    left to right. *)
Fixpoint replace_chr (old : ascii) (new : string) (s : string) : string :=
  match s with
  | EmptyString => EmptyString
  | String c s' =>
      if Ascii.eqb c old then (new ++ replace_chr old new s')%string
      else String c (replace_chr old new s')
  end.

(** [int(s)] for a string of ASCII digits. *)
Definition int_of_digits (s : string) : N :=
  fold_left (fun acc c => (10 * acc + (code c - 48))%N) (list_ascii_of_string s) 0%N.

(** [str(n)] for a non-negative [int]. *)
Definition str (n : N) : string := pretty n.

(** The built-in [float] on plain decimal literals: an optional sign, digits
    and at most one point, with a digit somewhere.  [decimal_parts] reads the
    literal as a fraction of integers; every other spelling is refused here.
    The model runs on concrete markup with this reading of its numbers. *)
Fixpoint decimal_go (s : string) (num den : Z) (point : bool) (ndigits : nat)
  : option (Z * Z) :=
  match s with
  | EmptyString =>
      match ndigits with
      | O => None
      | S _ => Some (num, den)
      end
  | String c s' =>
      if isdigit c then
        decimal_go s' (10 * num + Z.of_N (code c - 48))%Z
          (if point then (10 * den)%Z else den) point (S ndigits)
      else if Ascii.eqb c "." then
        if point then None else decimal_go s' num den true ndigits
      else None
  end.

Definition decimal_parts (s : string) : option (Z * Z) :=
  match s with
  | String c s' =>
      if Ascii.eqb c "-" then
        match decimal_go s' 0 1 false 0 with
        | Some (num, den) => Some ((- num)%Z, den)
        | None => None
        end
      else if Ascii.eqb c "+" then decimal_go s' 0 1 false 0
      else decimal_go s 0 1 false 0
  | EmptyString => None
  end.

Definition float_decimal (s : string) : option R :=
  match decimal_parts s with
  | Some (num, den) =>
      Some (if (den =? 1)%Z then IZR num else IZR num / IZR den)
  | None => None
  end.

(** *** The regular expressions of module [re]

    The patterns of the scripts are sequences of literal characters,
    character classes, greedy repetitions of a class, an optional literal,
    capture groups and the end anchor.  [match_at] is the backtracking
    matcher anchored at the start of its input: a greedy repetition takes
    the longest run first and gives characters back until the rest of the
    pattern matches. *)

Inductive atom : Type :=
| Lit (c : ascii)
| Class (p : ascii → bool)
| ClassStar (p : ascii → bool)
| ClassPlus (p : ascii → bool)
| ClassRep (n : nat) (p : ascii → bool)
| OptLit (c : ascii)
| GroupOpen
| GroupClose
| Eos.

Record pattern : Type := { ignorecase : bool; atoms : list atom }.

Definition lit (s : string) : list atom := map Lit (list_ascii_of_string s).

(** The groups closed so far, in order, and the text of the open group. *)
Record mstate : Type := { groups : list string; opened : option string }.

Definition mstate0 : mstate := {| groups := []; opened := None |}.

Definition consume (c : ascii) (st : mstate) : mstate :=
  {| groups := groups st;
     opened := (λ t : string, (t ++ String c EmptyString)%string) <$> opened st |}.

Definition chr_eq (ic : bool) (c d : ascii) : bool :=
  if ic then Ascii.eqb (lower c) (lower d) else Ascii.eqb c d.

Fixpoint match_at (ic : bool) (r : list atom)
  : string → mstate → option (mstate * string) :=
  match r with
  | [] => λ s st, Some (st, s)
  | Lit c :: r' => λ s st,
      match s with
      | String d s' => if chr_eq ic c d then match_at ic r' s' (consume d st) else None
      | EmptyString => None
      end
  | Class p :: r' => λ s st,
      match s with
      | String d s' => if p d then match_at ic r' s' (consume d st) else None
      | EmptyString => None
      end
  | ClassStar p :: r' =>
      let k := match_at ic r' in
      fix star (s : string) (st : mstate) : option (mstate * string) :=
        match s with
        | String d s' =>
            if p d then
              match star s' (consume d st) with
              | Some res => Some res
              | None => k s st
              end
            else k s st
        | EmptyString => k s st
        end
  | ClassPlus p :: r' =>
      let k := match_at ic r' in
      let star :=
        fix star (s : string) (st : mstate) : option (mstate * string) :=
          match s with
          | String d s' =>
              if p d then
                match star s' (consume d st) with
                | Some res => Some res
                | None => k s st
                end
              else k s st
          | EmptyString => k s st
          end in
      λ s st,
        match s with
        | String d s' => if p d then star s' (consume d st) else None
        | EmptyString => None
        end
  | ClassRep n p :: r' =>
      let k := match_at ic r' in
      (fix rep (n : nat) (s : string) (st : mstate) : option (mstate * string) :=
         match n with
         | O => k s st
         | S n' =>
             match s with
             | String d s' => if p d then rep n' s' (consume d st) else None
             | EmptyString => None
             end
         end) n
  | OptLit c :: r' => λ s st,
      match s with
      | String d s' =>
          if chr_eq ic c d then
            match match_at ic r' s' (consume d st) with
            | Some res => Some res
            | None => match_at ic r' s st
            end
          else match_at ic r' s st
      | EmptyString => match_at ic r' s st
      end
  | GroupOpen :: r' => λ s st,
      match_at ic r' s {| groups := groups st; opened := Some EmptyString |}
  | GroupClose :: r' => λ s st,
      match_at ic r' s
        {| groups := groups st ++ [default EmptyString (opened st)];
           opened := None |}
  | Eos :: r' => λ s st,
      match s with
      | EmptyString => match_at ic r' s st
      | String c EmptyString =>
          if Ascii.eqb c "010" then match_at ic r' s st else None
      | _ => None
      end
  end.

(** [p.search(s)]: the groups of the leftmost match. *)
Fixpoint search (p : pattern) (s : string) : option (list string) :=
  match match_at (ignorecase p) (atoms p) s mstate0 with
  | Some (st, _) => Some (groups st)
  | None =>
      match s with
      | String _ s' => search p s'
      | EmptyString => None
      end
  end.

(** [p.finditer(s)]: the groups of the successive matches, each search
    starting where the previous match ended.  [skip] counts the characters
    of the previous match still to pass.  (No pattern of the scripts matches
    the empty string.) *)
Fixpoint finditer_go (p : pattern) (s : string) (skip : nat)
  : list (list string) :=
  match s with
  | EmptyString => []
  | String _ s' =>
      match skip with
      | S k => finditer_go p s' k
      | O =>
          match match_at (ignorecase p) (atoms p) s mstate0 with
          | Some (st, rest) =>
              groups st :: finditer_go p s' (String.length s - String.length rest - 1)
          | None => finditer_go p s' 0
          end
      end
  end.

Definition finditer (p : pattern) (s : string) : list (list string) :=
  finditer_go p s 0.

(** [m.group(i)] for [i >= 1]. *)
Definition group (m : list string) (i : nat) : string :=
  nth (i - 1) m EmptyString.

End Py.

(** ** [extract_oed_star_metadata.py] *)

Module ExtractStar.
Import Py.

#[local] Open Scope string_scope.

Definition not_chr (c : ascii) : ascii → bool := λ d, negb (Ascii.eqb d c).

(** [[0-9.]] *)
Definition digit_or_dot : ascii → bool := λ d, isdigit d || Ascii.eqb d ".".

(** [<polygon\s+points='([^']+)'[^>]*\sfill='#ffd92f'[^>]*/>], IGNORECASE *)
Definition STAR_POLY_RE : pattern :=
  {| ignorecase := true;
     atoms := lit "<polygon" ++ [ClassPlus isspace] ++ lit "points='"
              ++ [GroupOpen; ClassPlus (not_chr "'"); GroupClose] ++ lit "'"
              ++ [ClassStar (not_chr ">"); Class isspace]
              ++ lit "fill='#ffd92f'" ++ [ClassStar (not_chr ">")] ++ lit "/>" |}.

(** [<text\s+x='([0-9.]+)'\s+y='478'[^>]*>(-?[0-9.]+)</text>] *)
Definition X_TICK_TEXT_RE : pattern :=
  {| ignorecase := false;
     atoms := lit "<text" ++ [ClassPlus isspace] ++ lit "x='"
              ++ [GroupOpen; ClassPlus digit_or_dot; GroupClose] ++ lit "'"
              ++ [ClassPlus isspace] ++ lit "y='478'"
              ++ [ClassStar (not_chr ">")] ++ lit ">"
              ++ [GroupOpen; OptLit "-"; ClassPlus digit_or_dot; GroupClose]
              ++ lit "</text>" |}.

(** [<text\s+x='62'\s+y='([0-9.]+)'[^>]*>(-?[0-9.]+)</text>] *)
Definition Y_TICK_TEXT_RE : pattern :=
  {| ignorecase := false;
     atoms := lit "<text" ++ [ClassPlus isspace] ++ lit "x='62'"
              ++ [ClassPlus isspace] ++ lit "y='"
              ++ [GroupOpen; ClassPlus digit_or_dot; GroupClose] ++ lit "'"
              ++ [ClassStar (not_chr ">")] ++ lit ">"
              ++ [GroupOpen; OptLit "-"; ClassPlus digit_or_dot; GroupClose]
              ++ lit "</text>" |}.

(** [_step_(\d{3})\.svg$], the pattern of the file names in [main] *)
Definition STEP_RE : pattern :=
  {| ignorecase := false;
     atoms := lit "_step_" ++ [GroupOpen; ClassRep 3 isdigit; GroupClose]
              ++ lit ".svg" ++ [Eos] |}.

(** [value = a * px + b] *)
Record Affine1D : Type := { a : R; b : R }.

(** [Affine1D.__call__] *)
Definition Affine1D_call (self : Affine1D) (px : R) : R :=
  a self * px + b self.

Definition _centroid_xy (pts : list (R * R)) : result (R * R) :=
  match pts with
  | [] => Raise (ValueError "No points")
  | _ =>
      let sx := sum (map fst pts) in
      let sy := sum (map snd pts) in
      Return (sx / INR (length pts), sy / INR (length pts))
  end.

Definition _fit_affine (p1 p2 : R * R) : result Affine1D :=
  let '(px1, v1) := p1 in
  let '(px2, v2) := p2 in
  if decide (px2 = px1) then Raise (ValueError "Degenerate affine fit")
  else
    let a := (v2 - v1) / (px2 - px1) in
    let b := v1 - a * px1 in
    Return {| a := a; b := b |}.

(** The functions below convert text with the built-in [float], which is a
    parameter of the model: [float s] is the number read, or [None] when
    Python raises [ValueError]. *)
Section Extraction.
Variable float : string → option R.

Definition float_or_raise (s : string) : result R :=
  match float s with
  | Some x => Return x
  | None => Raise (ValueError ("could not convert string to float: " ++ s))
  end.

(** The body of the loop of [_parse_points]: every [continue] leaves the
    list as it is. *)
Definition parse_token (pts : list (R * R)) (token : string) : list (R * R) :=
  if decide (token = "") then pts
  else
    match split_comma token with
    | None => pts
    | Some (xs, ys) =>
        match float xs, float ys with
        | Some x, Some y => pts ++ [(x, y)]
        | _, _ => pts
        end
    end.

Definition _parse_points (points : string) : list (R * R) :=
  fold_left parse_token (re_split_ws (strip points)) [].

(** [(float(m.group(1)), float(m.group(2)))] *)
Definition tick_of_match (m : list string) : result (R * R) :=
  px ← float_or_raise (group m 1);
  v ← float_or_raise (group m 2);
  Return (px, v).

Definition _extract_ticks (svg_text : string) : result (Affine1D * Affine1D) :=
  x_ticks ← list_comprehension tick_of_match (finditer X_TICK_TEXT_RE svg_text);
  y_ticks ← list_comprehension tick_of_match (finditer Y_TICK_TEXT_RE svg_text);
  if ((length x_ticks <? 2) || (length y_ticks <? 2))%nat
  then Raise (ValueError "Could not find enough axis ticks")
  else
    let x_ticks_sorted := sorted fst x_ticks in
    let y_ticks_sorted := sorted fst y_ticks in
    x_lo ← item_first x_ticks_sorted;
    x_hi ← item_last x_ticks_sorted;
    x_map ← _fit_affine (x_lo.1, x_lo.2) (x_hi.1, x_hi.2);
    y_lo ← item_first y_ticks_sorted;
    y_hi ← item_last y_ticks_sorted;
    y_map ← _fit_affine (y_lo.1, y_lo.2) (y_hi.1, y_hi.2);
    Return (x_map, y_map).

Definition _extract_star_xy (svg_text : string) : result (R * R) :=
  match search STAR_POLY_RE svg_text with
  | None => Raise (ValueError "Star polygon not found")
  | Some m => _centroid_xy (_parse_points (group m 1))
  end.

(** *** [main]

    The file system is what [main] reads of it: whether the series directory
    exists, and the sorted result of each of the two globs, name and text of
    every file ([glob_series] for the pattern of the series,
    [<series>_step_*.svg], and [glob_any] for [*_step_*.svg]).  The run is
    what [main] leaves: the mapping dumped to the output file, the number of
    entries it prints, and the status it returns.  The command line, the
    paths and the JSON text are not modelled; the message of [SystemExit] is
    given without the path. *)

Record svg_file : Type := { name : string; read_text : string }.

Record files : Type :=
  { plots_dir_exists : bool;
    glob_series : list svg_file;
    glob_any : list svg_file }.

Record star : Type := { x1 : R; x2 : R }.

Record run : Type :=
  { written : gmap string star;
    entries_printed : nat;
    exit_status : Z }.

(** One turn of the loop over [svgs]. *)
Definition loop_body (mapping : gmap string star) (svg : svg_file)
  : result (gmap string star) :=
  match search STEP_RE (name svg) with
  | None => Return mapping
  | Some m =>
      let labels_used := int_of_digits (group m 1) in
      let text := read_text svg in
      '(x_map, y_map) ← _extract_ticks text;
      '(star_px_x, star_px_y) ← _extract_star_xy text;
      Return (<[str labels_used :=
                  {| x1 := Affine1D_call x_map star_px_x;
                     x2 := Affine1D_call y_map star_px_y |}]> mapping)
  end.

Fixpoint for_svgs (svgs : list svg_file) (mapping : gmap string star)
  : result (gmap string star) :=
  match svgs with
  | [] => Return mapping
  | svg :: rest => mapping' ← loop_body mapping svg; for_svgs rest mapping'
  end.

(** The list [svgs] of [main]: the files of the series, or every step file
    when the first glob finds none. *)
Definition svgs (fs : files) : list svg_file :=
  match glob_series fs with
  | [] => glob_any fs
  | l => l
  end.

Definition main (fs : files) : result run :=
  if negb (plots_dir_exists fs) then Raise (SystemExit "Missing plot series dir")
  else
    mapping ← for_svgs (svgs fs) ∅;
    Return {| written := mapping;
              entries_printed := size mapping;
              exit_status := 0 |}.

(** *** The loop, artifact by artifact

    [frame_key] is the key an artifact is stored under, when its name carries
    a step index; [recovered] is the record computed from its text. *)

Definition frame_key (svg : svg_file) : option string :=
  m ← search STEP_RE (name svg);
  Some (str (int_of_digits (group m 1))).

Definition recovered (svg : svg_file) : result star :=
  '(x_map, y_map) ← _extract_ticks (read_text svg);
  '(star_px_x, star_px_y) ← _extract_star_xy (read_text svg);
  Return {| x1 := Affine1D_call x_map star_px_x;
            x2 := Affine1D_call y_map star_px_y |}.

(** The extraction of an artifact fails with [e]: its name carries a step
    index and reading its ticks or its marker raises [e]. *)
Definition fails (svg : svg_file) (e : exn) : Prop :=
  is_Some (frame_key svg) ∧ recovered svg = Raise e.

(** *** Vertices the marker locator can use

    A token is a usable vertex when it reads [xs,ys] (split at its first
    comma) and [float] converts both parts. *)
Definition usable_vertex (token : string) : option (R * R) :=
  '(xs, ys) ← split_comma token;
  x ← float xs;
  y ← float ys;
  Some (x, y).

Definition usable_vertices (points : string) : list (R * R) :=
  omap usable_vertex (re_split_ws (strip points)).

End Extraction.

(** The arithmetic mean of a non-empty list. *)
Definition mean (l : list R) : R := foldr Rplus 0 l / INR (length l).



(** *** Sample markup *)

Definition nl : string := String "010" EmptyString.

(** A frame whose marker is the triangle (0,0), (2,0), (1,2), with a token
    that is no vertex among its points. *)
Definition triangle_svg : string :=
  "<svg>" ++ nl ++
  "<polygon points='0,0 2,0 oops 1,2' stroke='#333' fill='#FFD92F' stroke-width='1'/>"
  ++ nl ++ "</svg>".

(** A frame with X ticks at pixels 100 and 500 labelled -1.0 and 1.0, Y
    ticks at pixels 50 and 450 labelled 2.0 and 0.0, and a marker of the
    given points. *)
Definition frame_svg (points : string) : string :=
  "<svg>" ++ nl ++
  "<text x='100' y='478' font-size='11'>-1.0</text>" ++ nl ++
  "<text x='500' y='478' font-size='11'>1.0</text>" ++ nl ++
  "<text x='62' y='50' text-anchor='end'>2.0</text>" ++ nl ++
  "<text x='62' y='450' text-anchor='end'>0.0</text>" ++ nl ++
  "<polygon points='" ++ points ++ "' stroke='#333' fill='#ffd92f' stroke-width='1'/>"
  ++ nl ++ "</svg>".

(** The same frame without any tick label, and without the marker. *)
Definition no_ticks_svg : string :=
  "<svg>" ++ nl ++
  "<polygon points='300,240 310,255 290,255' stroke='#333' fill='#ffd92f' stroke-width='1'/>"
  ++ nl ++ "</svg>".

Definition no_star_svg : string :=
  "<svg>" ++ nl ++
  "<text x='100' y='478' font-size='11'>-1.0</text>" ++ nl ++
  "<text x='500' y='478' font-size='11'>1.0</text>" ++ nl ++
  "<text x='62' y='50' text-anchor='end'>2.0</text>" ++ nl ++
  "<text x='62' y='450' text-anchor='end'>0.0</text>" ++ nl ++
  "<polygon points='300,240 310,255 290,255' stroke='#333' fill='#1f77b4'/>"
  ++ nl ++ "</svg>".

(** A frame whose two X labels stand at the same pixel, and a frame whose
    marker has no usable vertex. *)
Definition same_pixel_svg : string :=
  "<svg>" ++ nl ++
  "<text x='100' y='478' font-size='11'>-1.0</text>" ++ nl ++
  "<text x='100' y='478' font-size='11'>1.0</text>" ++ nl ++
  "<text x='62' y='50' text-anchor='end'>2.0</text>" ++ nl ++
  "<text x='62' y='450' text-anchor='end'>0.0</text>" ++ nl ++
  "<polygon points='300,240 310,255 290,255' stroke='#333' fill='#ffd92f' stroke-width='1'/>"
  ++ nl ++ "</svg>".

Definition no_vertex_svg : string := frame_svg "300;240 none 1,2,3".

(** A frame whose second X label is no number. *)
Definition bad_label_svg : string :=
  "<svg>" ++ nl ++
  "<text x='100' y='478' font-size='11'>-1.0</text>" ++ nl ++
  "<text x='500' y='478' font-size='11'>1.2.3</text>" ++ nl ++
  "<text x='62' y='50' text-anchor='end'>2.0</text>" ++ nl ++
  "<text x='62' y='450' text-anchor='end'>0.0</text>" ++ nl ++
  "<polygon points='300,240' stroke='#333' fill='#ffd92f' stroke-width='1'/>"
  ++ nl ++ "</svg>".

(** A series of five frames of which the third has no tick label. *)
Definition five_frames : files :=
  {| plots_dir_exists := true;
     glob_series :=
       [ {| name := "expected_info_gain_step_000.svg";
            read_text := frame_svg "300,240 310,255 290,255" |};
         {| name := "expected_info_gain_step_001.svg";
            read_text := frame_svg "300,240 310,255 290,255" |};
         {| name := "expected_info_gain_step_002.svg";
            read_text := no_ticks_svg |};
         {| name := "expected_info_gain_step_003.svg";
            read_text := frame_svg "300,240 310,255 290,255" |};
         {| name := "expected_info_gain_step_004.svg";
            read_text := frame_svg "300,240 310,255 290,255" |} ];
     glob_any := [] |}.

(** A series of two frames of which the second has no marker. *)
Definition two_frames : files :=
  {| plots_dir_exists := true;
     glob_series :=
       [ {| name := "expected_info_gain_step_000.svg";
            read_text := frame_svg "300,240 310,255 290,255" |};
         {| name := "expected_info_gain_step_001.svg";
            read_text := no_star_svg |} ];
     glob_any := [] |}.

(** Two files of a directory whose names end in the same step index. *)
Definition colliding_frames : files :=
  {| plots_dir_exists := true;
     glob_series := [];
     glob_any :=
       [ {| name := "a_step_001.svg";
            read_text := frame_svg "300,240 310,255 290,255" |};
         {| name := "b_step_001.svg";
            read_text := frame_svg "200,150" |} ] |}.

(** A series of two frames with distinct step indexes, a file of another
    name between them. *)
Definition mixed_frames : files :=
  {| plots_dir_exists := true;
     glob_series := [];
     glob_any :=
       [ {| name := "a_step_001.svg";
            read_text := frame_svg "300,240 310,255 290,255" |};
         {| name := "legend_step_x.svg"; read_text := no_ticks_svg |};
         {| name := "a_step_002.svg"; read_text := frame_svg "200,150" |} ] |}.

(** The same two frames alone, in the order of their names. *)
Definition named_frames : files :=
  {| plots_dir_exists := true;
     glob_series := [];
     glob_any :=
       [ {| name := "a_step_001.svg";
            read_text := frame_svg "300,240 310,255 290,255" |};
         {| name := "a_step_002.svg"; read_text := frame_svg "200,150" |} ] |}.

(** The same two frames, listed in the other order. *)
Definition swapped_frames : files :=
  {| plots_dir_exists := true;
     glob_series := [];
     glob_any :=
       [ {| name := "a_step_002.svg"; read_text := frame_svg "200,150" |};
         {| name := "a_step_001.svg";
            read_text := frame_svg "300,240 310,255 290,255" |} ] |}.

(** A directory whose only file of the series carries no step index, beside
    a frame of another series; and the same directory without that file. *)
Definition unindexed_series : files :=
  {| plots_dir_exists := true;
     glob_series :=
       [ {| name := "expected_info_gain_step_abc.svg";
            read_text := no_ticks_svg |} ];
     glob_any :=
       [ {| name := "expected_info_gain_step_abc.svg";
            read_text := no_ticks_svg |};
         {| name := "other_step_001.svg"; read_text := frame_svg "200,150" |} ] |}.

Definition unindexed_series_removed : files :=
  {| plots_dir_exists := true;
     glob_series := [];
     glob_any :=
       [ {| name := "other_step_001.svg"; read_text := frame_svg "200,150" |} ] |}.

End ExtractStar.

(** ** [generate_partition_kernel_pullback_svg.py] *)

Module PartitionFigure.
Import Py.

(** *** [math]

    [math.erf] is the error function, 2/sqrt(pi) times the integral of
    exp(-t^2) from 0 to x. *)

Definition erf_integrand (t : R) : R := exp (- (t * t)).

Lemma erf_integrand_continuity : continuity erf_integrand.
Proof. unfold erf_integrand. reg. Qed.

Lemma erf_integrable (x : R) : 0 <= x → Riemann_integrable erf_integrand 0 x.
Proof.
  intros Hx. apply continuity_implies_RiemannInt; [exact Hx|].
  intros t _. apply erf_integrand_continuity.
Qed.

Lemma neg_nonneg (x : R) : ¬ 0 <= x → 0 <= - x.
Proof. lra. Qed.

Definition erf (x : R) : R :=
  match Rle_dec 0 x with
  | left H => 2 / sqrt PI * RiemannInt (erf_integrable x H)
  | right H => - (2 / sqrt PI * RiemannInt (erf_integrable (- x) (neg_nonneg x H)))
  end.

(** [math.floor] and [math.ceil] *)
Definition floor (x : R) : Z := Int_part x.
Definition ceil (x : R) : Z := (- Int_part (- x))%Z.

(** [round(x, ndigits)]: to the nearest multiple of 10^-ndigits, a tie going
    to the even one. *)
Definition round_half_even (x : R) : Z :=
  let f := Int_part x in
  let d := x - IZR f in
  if decide (d < 1 / 2) then f
  else if decide (1 / 2 < d) then (f + 1)%Z
  else if Z.even f then f else (f + 1)%Z.

Definition round (x : R) (ndigits : nat) : R :=
  IZR (round_half_even (x * 10 ^ ndigits)) / 10 ^ ndigits.

(** *** The functions of the module *)

Definition stdnorm_pdf (x : R) : R := exp (-0.5 * x * x) / sqrt (2.0 * PI).

Definition stdnorm_cdf (x : R) : R := 0.5 * (1.0 + erf (x / sqrt 2.0)).

Definition clamp (value low high : R) : R := Rmax low (Rmin high value).

(** The double quote, character 34. *)
Definition dquote : ascii := "034"%char.

Definition xml_escape (text : string) : string :=
  replace_chr "'" "&apos;"
    (replace_chr dquote "&quot;"
       (replace_chr ">" "&gt;"
          (replace_chr "<" "&lt;"
             (replace_chr "&" "&amp;" text)))).

(** *** [main]: parameters *)

Definition x_min : R := -3.0.
Definition x_max : R := 3.0.
Definition delta : R := 0.4.

Definition k_min : Z := ceil (x_min / delta).
Definition k_max : Z := floor (x_max / delta).

(** [[round(delta * k, 10) for k in range(k_min, k_max + 1)]] *)
Definition x_lines : list R :=
  map (λ k, round (delta * IZR k) 10) (seqZ k_min (k_max + 1 - k_min)).

Definition highlight_left : R := 1.2.
Definition highlight_right : R := 1.6.

(** *** [main]: layout *)

Definition width : R := 980.0.
Definition height : R := 680.0.
Definition margin_left : R := 64.0.
Definition margin_right : R := 40.0.
Definition margin_top : R := 42.0.
Definition margin_bottom : R := 80.0.
Definition gap : R := 78.0.
Definition plot_w : R := (width - margin_left - margin_right - gap) / 2.0.
Definition top_plot_h : R := 264.0.
Definition middle_gap : R := 120.0.
Definition bar_plot_h : R :=
  height - margin_top - margin_bottom - top_plot_h - middle_gap.

Definition left_x0 : R := margin_left.
Definition right_x0 : R := margin_left + plot_w + gap.
Definition y0 : R := margin_top.
Definition y_bar0 : R := y0 + top_plot_h + middle_gap.

(** *** [main]: scales *)

Definition y_max_gauss : R := 0.42.
Definition y_max_unif : R := 1.2.

Definition gx (x : R) : R := left_x0 + (x - x_min) / (x_max - x_min) * plot_w.

Definition gy (y : R) : R := y0 + (y_max_gauss - y) / y_max_gauss * top_plot_h.

Definition ux (u : R) : R := right_x0 + u * plot_w.

Definition uy (y : R) : R := y0 + (y_max_unif - y) / y_max_unif * top_plot_h.

(** [by] in the source ([by] is a keyword here). *)
Definition by_ (y : R) : R :=
  let y_max_bar := 0.18 in
  y_bar0 + (y_max_bar - y) / y_max_bar * bar_plot_h.

(** *** [main]: curves *)

Definition gauss_points : list (R * R) :=
  map (λ i : nat,
         let x := x_min + (x_max - x_min) * INR i / 240.0 in
         (gx x, gy (stdnorm_pdf x)))
      (seq 0 241).

Definition highlight_points : list (R * R) :=
  [(gx highlight_left, gy 0.0)]
  ++ map (λ i : nat,
            let x :=
              highlight_left + (highlight_right - highlight_left) * INR i / 80.0 in
            (gx x, gy (stdnorm_pdf x)))
         (seq 0 81)
  ++ [(gx highlight_right, gy 0.0)].

(** *** [main]: discrete bins

    The block that builds [bins] and [probs], as functions of the list of
    inner edges and of the distribution function; [main] runs it on [x_lines]
    and [stdnorm_cdf].  [None] is the open end of a tail bin. *)

Definition bins (inner_edges : list R) : result (list (option R * option R)) :=
  edge_first ← item_first inner_edges;
  let inner :=
    map (λ i : nat, (Some (nth i inner_edges 0), Some (nth (i + 1) inner_edges 0)))
        (seq 0 (length inner_edges - 1)) in
  edge_last ← item_last inner_edges;
  Return ([(None, Some edge_first)] ++ inner ++ [(Some edge_last, None)]).

Definition bin_probability (cdf : R → R) (bin : option R * option R) : result R :=
  match bin with
  | (None, Some right_) => Return (cdf right_)
  | (Some left_, None) => Return (1.0 - cdf left_)
  | (Some left_, Some right_) => Return (cdf right_ - cdf left_)
  | (None, None) => Raise (ValueError "Invalid bin interval.")
  end.

Definition partition_probabilities (cdf : R → R) (inner_edges : list R)
  : result (list R) :=
  bs ← bins inner_edges;
  list_comprehension (bin_probability cdf) bs.

(** The list [probs] of [main]. *)
Definition probs : result (list R) := partition_probabilities stdnorm_cdf x_lines.

(** *** [main]: bars

    One rectangle per bin, in the order of the bins: [idx] is the position of
    the bin and [p] its probability, [n_bars] the number of bins. *)

Definition bar_x0 : R := margin_left.
Definition bar_w : R := width - margin_left - margin_right.
Definition y_max_bar : R := 0.18.
Definition bar_gap : R := 4.0.

Definition per_bar (n_bars : nat) : R :=
  (bar_w - bar_gap * (INR n_bars - 1)) / INR n_bars.

Record rect : Type :=
  { rect_x : R; rect_y : R; rect_width : R; rect_height : R }.

Definition bar_rect (n_bars idx : nat) (p : R) : rect :=
  let x_left := bar_x0 + INR idx * (per_bar n_bars + bar_gap) in
  let y_top := by_ (clamp p 0.0 y_max_bar) in
  let height_px := y_bar0 + bar_plot_h - y_top in
  {| rect_x := x_left;
     rect_y := y_top;
     rect_width := per_bar n_bars;
     rect_height := height_px |}.

(** [[... for idx, (bin, p) in enumerate(zip(bins, probs))]] *)
Definition bar_rects (probs : list R) : list rect :=
  imap (λ idx p, bar_rect (length probs) idx p) probs.

(** The two checks of [main] that stop the run. *)
Definition checks : result unit :=
  if decide (highlight_left ∈ x_lines ∧ highlight_right ∈ x_lines) then
    if decide (bar_plot_h < 160) then
      Raise (ValueError "Figure layout error: bar_plot_h too small.")
    else Return ()
  else Raise (ValueError "Highlight endpoints must coincide with bin boundaries.").

End PartitionFigure.

(** ** The arithmetic of the two scripts in binary64

    The functions of the two scripts that compute with floats, over the
    binary64 numbers: every operation is the rounded one, [==] and [<] are
    the comparisons of IEEE 754.  A float literal stands for the binary64
    number nearest to it, as in Python. *)

Module Binary64.
Import Py.
Import PrimFloat.

#[local] Open Scope float_scope.
#[local] Set Warnings "-inexact-float".

(** [float(n)] for an [int] that is a length or a loop index. *)
Definition float_of_nat (n : nat) : float :=
  of_uint63 (Uint63.of_Z (Z.of_nat n)).

(** The built-in [sum] over floats, up to CPython 3.11: the [int] 0, then a
    left fold of [+]. *)
Definition sum (l : list float) : float := fold_left add l 0.



(** *** [extract_oed_star_metadata.py] *)

Module ExtractStar64.

Record Affine1D : Type := { a : float; b : float }.

Definition Affine1D_call (self : Affine1D) (px : float) : float :=
  a self * px + b self.

(** [sum] is the built-in of the interpreter that runs the script. *)
Definition _centroid_xy (sum : list float → float) (pts : list (float * float))
  : result (float * float) :=
  match pts with
  | [] => Raise (ValueError "No points")
  | _ =>
      let sx := sum (map fst pts) in
      let sy := sum (map snd pts) in
      Return (sx / float_of_nat (length pts), sy / float_of_nat (length pts))
  end.

Definition _fit_affine (p1 p2 : float * float) : result Affine1D :=
  let '(px1, v1) := p1 in
  let '(px2, v2) := p2 in
  if px2 =? px1 then Raise (ValueError "Degenerate affine fit")
  else
    let a := (v2 - v1) / (px2 - px1) in
    let b := v1 - a * px1 in
    Return {| a := a; b := b |}.

End ExtractStar64.

(** *** [generate_partition_kernel_pullback_svg.py] *)

Module PartitionFigure64.

(** [math.pi] *)
Definition pi : float := 0x1.921fb54442d18p+1.

Definition x_min : float := -3.0.
Definition x_max : float := 3.0.

Definition highlight_left : float := 1.2.
Definition highlight_right : float := 1.6.

Definition width : float := 980.0.
Definition height : float := 680.0.
Definition margin_left : float := 64.0.
Definition margin_right : float := 40.0.
Definition margin_top : float := 42.0.
Definition margin_bottom : float := 80.0.
Definition gap : float := 78.0.
Definition plot_w : float := (width - margin_left - margin_right - gap) / 2.0.
Definition top_plot_h : float := 264.0.
Definition middle_gap : float := 120.0.
Definition bar_plot_h : float :=
  height - margin_top - margin_bottom - top_plot_h - middle_gap.

Definition left_x0 : float := margin_left.
Definition right_x0 : float := margin_left + plot_w + gap.
Definition y0 : float := margin_top.
Definition y_bar0 : float := y0 + top_plot_h + middle_gap.

Definition y_max_gauss : float := 0.42.
Definition y_max_unif : float := 1.2.

Definition gx (x : float) : float := left_x0 + (x - x_min) / (x_max - x_min) * plot_w.

Definition gy (y : float) : float := y0 + (y_max_gauss - y) / y_max_gauss * top_plot_h.

Definition ux (u : float) : float := right_x0 + u * plot_w.

Definition uy (y : float) : float := y0 + (y_max_unif - y) / y_max_unif * top_plot_h.

Definition by_ (y : float) : float :=
  let y_max_bar := 0.18 in
  y_bar0 + (y_max_bar - y) / y_max_bar * bar_plot_h.

(** The abscissa [x] of turn [i] of each of the two loops that sample the
    curve. *)
Definition gauss_x (i : nat) : float :=
  x_min + (x_max - x_min) * float_of_nat i / 240.0.

Definition highlight_x (i : nat) : float :=
  highlight_left + (highlight_right - highlight_left) * float_of_nat i / 80.0.

(** [math.exp] is a parameter: the C library's exponential, which the
    language does not pin down to the last bit.  [math.sqrt] is the correctly
    rounded square root. *)
Section Libm.
Variable exp : float → float.

Definition stdnorm_pdf (x : float) : float := exp (-0.5 * x * x) / sqrt (2.0 * pi).

Definition gauss_points : list (float * float) :=
  map (λ i : nat, let x := gauss_x i in (gx x, gy (stdnorm_pdf x))) (seq 0 241).

Definition highlight_points : list (float * float) :=
  [(gx highlight_left, gy 0.0)]
  ++ map (λ i : nat, let x := highlight_x i in (gx x, gy (stdnorm_pdf x)))
         (seq 0 81)
  ++ [(gx highlight_right, gy 0.0)].

End Libm.

End PartitionFigure64.

End Binary64.

(** ** Facts about the substrate *)

Module PyProofs.
Import Py.

#[local] Open Scope string_scope.

(** *** Sums and comprehensions *)

Lemma fold_left_Rplus_acc (l : list R) (acc : R) :
  fold_left Rplus l acc = acc + foldr Rplus 0 l.
Proof.
  revert acc. induction l as [|x l IH]; intros acc; simpl.
  - lra.
  - rewrite IH. lra.
Qed.

Lemma sum_foldr (l : list R) : sum l = foldr Rplus 0 l.
Proof. unfold sum. rewrite fold_left_Rplus_acc. lra. Qed.

Lemma list_comprehension_app {A B : Type} (f : A → result B) (l1 l2 : list A)
    (r1 r2 : list B) :
  list_comprehension f l1 = Return r1 →
  list_comprehension f l2 = Return r2 →
  list_comprehension f (l1 ++ l2) = Return (r1 ++ r2)%list.
Proof.
  revert r1. induction l1 as [|x l1 IH]; intros r1 H1 H2; simpl in *.
  - injection H1 as <-. exact H2.
  - destruct (f x) as [y|e]; simpl in *; [|discriminate].
    destruct (list_comprehension f l1) as [ys|e]; simpl in *; [|discriminate].
    injection H1 as <-. rewrite (IH ys eq_refl H2). reflexivity.
Qed.

Lemma list_comprehension_map {A B C : Type} (f : A → result B) (g : C → A)
    (h : C → B) (l : list C) :
  (∀ x, f (g x) = Return (h x)) →
  list_comprehension f (map g l) = Return (map h l).
Proof.
  intros Hf. induction l as [|x l IH]; simpl; [reflexivity|].
  rewrite Hf, IH. reflexivity.
Qed.

Lemma lookup_map_seq {A : Type} (f : nat → A) (start n i : nat) :
  (i < n)%nat → map f (seq start n) !! i = Some (f (start + i)%nat).
Proof.
  revert start i. induction n as [|n IH]; intros start i Hi; [lia|].
  destruct i as [|i]; simpl.
  - rewrite Nat.add_0_r. reflexivity.
  - rewrite IH by lia. f_equal. f_equal. lia.
Qed.

(** *** The sort

    [sorted] permutes its list and orders it by key, so the first element of
    the result has the least key and the last one the greatest. *)

Section Sorting.
Context {A : Type} (key : A → R).

Definition by_key (u v : A) : Prop := key u <= key v.

Lemma insert_by_Permutation (x : A) (l : list A) : insert_by key x l ≡ₚ x :: l.
Proof.
  induction l as [|y l IH]; simpl; [reflexivity|].
  destruct (decide (key y < key x)); [|reflexivity].
  rewrite IH. apply Permutation_swap.
Qed.

Lemma sorted_Permutation (l : list A) : sorted key l ≡ₚ l.
Proof.
  induction l as [|x l IH]; simpl; [reflexivity|].
  rewrite insert_by_Permutation, IH. reflexivity.
Qed.

Lemma insert_by_ordered (x : A) (l : list A) :
  StronglySorted by_key l → StronglySorted by_key (insert_by key x l).
Proof.
  induction 1 as [|y l Hl IH Hy]; simpl.
  - repeat constructor.
  - destruct (decide (key y < key x)) as [Hlt|Hge].
    + constructor; [exact IH|].
      rewrite Forall_forall in Hy |- *. intros z Hz.
      rewrite insert_by_Permutation in Hz.
      apply elem_of_cons in Hz as [->|Hz].
      * unfold by_key. lra.
      * apply Hy, Hz.
    + constructor; [constructor; assumption|].
      constructor; [unfold by_key; lra|].
      rewrite Forall_forall in Hy |- *. intros z Hz.
      specialize (Hy z Hz). unfold by_key in *. lra.
Qed.

Lemma sorted_ordered (l : list A) : StronglySorted by_key (sorted key l).
Proof.
  induction l as [|x l IH]; simpl; [constructor|].
  apply insert_by_ordered, IH.
Qed.

Lemma item_first_least (l : list A) (x : A) :
  item_first (sorted key l) = Return x → ∀ y, y ∈ l → key x <= key y.
Proof.
  intros Hx y Hy. rewrite <- sorted_Permutation in Hy.
  pose proof (sorted_ordered l) as Hs.
  destruct (sorted key l) as [|z s]; [discriminate|].
  injection Hx as ->. apply StronglySorted_inv in Hs as [_ Hall].
  apply elem_of_cons in Hy as [->|Hy]; [lra|].
  rewrite Forall_forall in Hall. apply Hall, Hy.
Qed.

Lemma item_last_greatest (l : list A) (x : A) :
  item_last (sorted key l) = Return x → ∀ y, y ∈ l → key y <= key x.
Proof.
  intros Hx y Hy. rewrite <- sorted_Permutation in Hy.
  pose proof (sorted_ordered l) as Hs. unfold item_last in Hx.
  destruct (last (sorted key l)) as [z|] eqn:Hlast; [|discriminate].
  injection Hx as ->. apply last_Some in Hlast as [s Hs'].
  rewrite Hs' in Hs, Hy. clear Hs'.
  apply elem_of_app in Hy as [Hy|Hy].
  - induction s as [|u s IH]; [inversion Hy|].
    simpl in Hs. apply StronglySorted_inv in Hs as [Hs Hall].
    apply elem_of_cons in Hy as [->|Hy]; [|apply IH; assumption].
    rewrite Forall_forall in Hall. apply Hall.
    apply elem_of_app. right. left.
  - apply list_elem_of_singleton in Hy as ->. lra.
Qed.

End Sorting.

(** *** Text functions on sample inputs *)

Example strip_split_example :
  re_split_ws (strip ("  1,2 3,4" ++ String "010" " 5,6  ")) = ["1,2"; "3,4"; "5,6"].
Proof. reflexivity. Qed.

Example split_blank_example : re_split_ws (strip "   ") = [""].
Proof. reflexivity. Qed.

Example split_unstripped_example : re_split_ws "  a b " = [""; "a"; "b"; ""].
Proof. reflexivity. Qed.

Example split_comma_example : split_comma "1,2,3" = Some ("1", "2,3").
Proof. reflexivity. Qed.

Example str_int_example : str (int_of_digits "012") = "12".
Proof. vm_compute. reflexivity. Qed.

Example float_decimal_examples :
  float_decimal "-1.0" = Some (-10 / 10)
  ∧ float_decimal "478" = Some 478
  ∧ float_decimal "1.2.3" = None
  ∧ float_decimal "." = None
  ∧ float_decimal "oops" = None.
Proof. repeat split; vm_compute; reflexivity. Qed.

End PyProofs.

(** ** Properties of the coordinate recovery *)

Module ExtractStarProofs.
Import Py PyProofs ExtractStar.

#[local] Open Scope string_scope.

(** *** The affine fit *)

Lemma fit_affine_distinct (px1 v1 px2 v2 : R) :
  px1 ≠ px2 →
  _fit_affine (px1, v1) (px2, v2)
  = Return {| a := (v2 - v1) / (px2 - px1);
              b := v1 - (v2 - v1) / (px2 - px1) * px1 |}.
Proof.
  intros Hne. unfold _fit_affine.
  destruct (decide (px2 = px1)) as [Heq|_]; [congruence|reflexivity].
Qed.

Lemma fit_affine_equal (px v1 v2 : R) :
  _fit_affine (px, v1) (px, v2) = Raise (ValueError "Degenerate affine fit").
Proof.
  unfold _fit_affine. destruct (decide (px = px)) as [_|Hne]; [reflexivity|].
  contradiction Hne; reflexivity.
Qed.

Lemma fit_affine_inv (p1 p2 : R * R) (m : Affine1D) :
  _fit_affine p1 p2 = Return m →
  p1.1 ≠ p2.1
  ∧ a m = (p2.2 - p1.2) / (p2.1 - p1.1)
  ∧ b m = p1.2 - a m * p1.1.
Proof.
  destruct p1 as [px1 v1], p2 as [px2 v2]. unfold _fit_affine.
  destruct (decide (px2 = px1)) as [Heq|Hne]; [discriminate|].
  intros [= <-]. simpl. repeat split. congruence.
Qed.



(** C3.  Two reference points with the same pixel coordinate are rejected
    with the error of the degenerate fit, whatever their values; in
    particular a point fitted against itself. *)
Theorem fit_affine_degenerate_rejected :
  (∀ px v1 v2 : R,
     _fit_affine (px, v1) (px, v2) = Raise (ValueError "Degenerate affine fit"))
  ∧ (∀ p : R * R,
       _fit_affine p p = Raise (ValueError "Degenerate affine fit")).
Proof.
  split.
  - apply fit_affine_equal.
  - intros [px v]. apply fit_affine_equal.
Qed.

(** *** The centroid *)

Lemma centroid_mean (pts : list (R * R)) :
  pts ≠ [] →
  _centroid_xy pts = Return (mean (map fst pts), mean (map snd pts)).
Proof.
  intros Hne. unfold _centroid_xy, mean.
  destruct pts as [|p pts]; [congruence|].
  rewrite !sum_foldr, !length_map. reflexivity.
Qed.








(** *** The marker locator *)

Lemma parse_token_usable (float : string → option R) (pts : list (R * R))
    (token : string) :
  parse_token float pts token
  = (pts ++ match usable_vertex float token with
            | Some v => [v]
            | None => []
            end)%list.
Proof.
  unfold parse_token, usable_vertex.
  destruct (decide (token = "")) as [->|_]; simpl.
  - rewrite app_nil_r. reflexivity.
  - destruct (split_comma token) as [[xs ys]|]; simpl;
      [|rewrite app_nil_r; reflexivity].
    destruct (float xs) as [x|]; simpl; [|rewrite app_nil_r; reflexivity].
    destruct (float ys) as [y|]; simpl; [reflexivity|].
    rewrite app_nil_r. reflexivity.
Qed.

Lemma fold_parse_token (float : string → option R) (tokens : list string)
    (pts : list (R * R)) :
  fold_left (parse_token float) tokens pts
  = (pts ++ omap (usable_vertex float) tokens)%list.
Proof.
  revert pts. induction tokens as [|t tokens IH]; intros pts; simpl.
  - rewrite app_nil_r. reflexivity.
  - rewrite IH, parse_token_usable.
    destruct (usable_vertex float t); rewrite <- app_assoc; reflexivity.
Qed.

(** The points read by [_parse_points] are the usable vertices, in order: a
    token that is not one adds nothing. *)
Lemma parse_points_usable (float : string → option R) (points : string) :
  _parse_points float points = usable_vertices float points.
Proof. unfold _parse_points, usable_vertices. apply fold_parse_token. Qed.

Lemma centroid_triangle :
  _centroid_xy [(0, 0); (2, 0); (1, 2)] = Return (1, 2 / 3).
Proof.
  rewrite centroid_mean by discriminate. unfold mean. simpl.
  f_equal. f_equal; lra.
Qed.

(** C8.  When the marker shape is found and its points hold a usable vertex,
    the locator returns the arithmetic mean of the x-coordinates and of the
    y-coordinates of the usable vertices; a malformed token is no usable
    vertex and is not counted.  The centroid of (0,0), (2,0), (1,2) is
    (1, 0.667) within a thousandth. *)
Theorem marker_centroid (float : string → option R) (svg_text : string)
    (m : list string) :
  search STAR_POLY_RE svg_text = Some m →
  usable_vertices float (group m 1) ≠ [] →
  _extract_star_xy float svg_text
  = Return (mean (map fst (usable_vertices float (group m 1))),
            mean (map snd (usable_vertices float (group m 1))))
  ∧ ∃ cx cy, _centroid_xy [(0, 0); (2, 0); (1, 2)] = Return (cx, cy)
             ∧ cx = 1 ∧ Rabs (cy - 0.667) <= 0.001.
Proof.
  intros Hm Hne. split.
  - unfold _extract_star_xy. rewrite Hm, parse_points_usable.
    apply centroid_mean, Hne.
  - exists 1, (2 / 3). split; [apply centroid_triangle|].
    split; [reflexivity|]. apply Rabs_le. lra.
Qed.

Lemma marker_centroid_witness :
  _extract_star_xy float_decimal triangle_svg
  = Return (mean (map fst [(0, 0); (2, 0); (1, 2)]),
            mean (map snd [(0, 0); (2, 0); (1, 2)]))
  ∧ ∃ cx cy, _centroid_xy [(0, 0); (2, 0); (1, 2)] = Return (cx, cy)
             ∧ cx = 1 ∧ Rabs (cy - 0.667) <= 0.001.
Proof.
  assert (Hm : search STAR_POLY_RE triangle_svg = Some ["0,0 2,0 oops 1,2"])
    by (vm_compute; reflexivity).
  assert (Hv : usable_vertices float_decimal (group ["0,0 2,0 oops 1,2"] 1)
               = [(0, 0); (2, 0); (1, 2)])
    by (vm_compute; reflexivity).
  rewrite <- Hv.
  apply (marker_centroid float_decimal triangle_svg _ Hm).
  rewrite Hv. discriminate.
Defined.

(** *** The batch loop *)

Section Batch.
Variable float : string → option R.

(** One turn of the loop: an artifact without a step index is passed over,
    any other is recovered and stored under its key, and an exception of the
    recovery leaves the turn. *)
Lemma loop_body_spec (mapping : gmap string star) (svg : svg_file) :
  loop_body float mapping svg
  = match frame_key svg with
    | None => Return mapping
    | Some k => v ← recovered float svg; Return (<[k := v]> mapping)
    end.
Proof.
  unfold loop_body, frame_key, recovered.
  destruct (search STEP_RE (name svg)) as [m|]; simpl; [|reflexivity].
  destruct (_extract_ticks float (read_text svg)) as [[x_map y_map]|e]; simpl;
    [|reflexivity].
  destruct (_extract_star_xy float (read_text svg)) as [[px py]|e]; reflexivity.
Qed.

Lemma loop_body_fails (mapping : gmap string star) (svg : svg_file) (e : exn) :
  fails float svg e → loop_body float mapping svg = Raise e.
Proof.
  intros [[k Hk] He]. rewrite loop_body_spec, Hk, He. reflexivity.
Qed.

Lemma loop_body_returns (mapping : gmap string star) (svg : svg_file) :
  (∀ e, ¬ fails float svg e) →
  ∃ mapping', loop_body float mapping svg = Return mapping'.
Proof.
  intros Hok. rewrite loop_body_spec.
  destruct (frame_key svg) as [k|] eqn:Hk; [|eauto].
  destruct (recovered float svg) as [v|e] eqn:Hv; simpl; [eauto|].
  exfalso. apply (Hok e). split; [eauto|assumption].
Qed.

Lemma for_svgs_app (l1 l2 : list svg_file) (mapping : gmap string star) :
  for_svgs float (l1 ++ l2) mapping
  = for_svgs float l1 mapping ≫= for_svgs float l2.
Proof.
  revert mapping. induction l1 as [|svg l1 IH]; intros mapping; simpl.
  - reflexivity.
  - destruct (loop_body float mapping svg) as [mapping'|e]; simpl;
      [apply IH|reflexivity].
Qed.

(** The loop stops at the first artifact whose extraction fails. *)
Lemma for_svgs_raise (before after : list svg_file) (svg : svg_file) (e : exn)
    (mapping : gmap string star) :
  (∀ s e', s ∈ before → ¬ fails float s e') →
  fails float svg e →
  for_svgs float (before ++ svg :: after) mapping = Raise e.
Proof.
  revert mapping. induction before as [|s before IH]; intros mapping Hok Hsvg.
  - simpl. rewrite (loop_body_fails _ _ _ Hsvg). reflexivity.
  - simpl.
    destruct (loop_body_returns mapping s) as [mapping' ->].
    { intros e'. apply Hok. left. }
    simpl. apply IH; [|exact Hsvg].
    intros t e' Ht. apply Hok. right. exact Ht.
Qed.

(** Without a failing artifact the loop ends, and the keys added are the
    frame indexes of the artifacts. *)
Lemma for_svgs_returns (l : list svg_file) (mapping : gmap string star) :
  (∀ s e, s ∈ l → ¬ fails float s e) →
  ∃ mapping', for_svgs float l mapping = Return mapping'
    ∧ ∀ k, is_Some (mapping' !! k)
           ↔ is_Some (mapping !! k) ∨ ∃ s, s ∈ l ∧ frame_key s = Some k.
Proof.
  revert mapping. induction l as [|s l IH]; intros mapping Hok.
  - exists mapping. split; [reflexivity|]. intros k. split; [auto|].
    intros [H|(s & Hs & _)]; [exact H|]. inversion Hs.
  - simpl. rewrite loop_body_spec.
    assert (Hl : ∀ t e, t ∈ l → ¬ fails float t e).
    { intros t e Ht. apply Hok. right. exact Ht. }
    destruct (frame_key s) as [ks|] eqn:Hks.
    + destruct (recovered float s) as [v|e] eqn:Hv.
      * simpl. destruct (IH (<[ks := v]> mapping) Hl) as (mapping' & Hrun & Hdom).
        exists mapping'. split; [exact Hrun|]. intros k. rewrite Hdom.
        rewrite lookup_insert_is_Some. split.
        -- intros [[->|[_ H]]|(t & Ht & Hk)].
           ++ right. exists s. split; [left|exact Hks].
           ++ left. exact H.
           ++ right. exists t. split; [right; exact Ht|exact Hk].
        -- intros [H|(t & Ht & Hk)].
           ++ left. destruct (decide (ks = k)) as [->|Hne]; [left; reflexivity|].
              right. split; assumption.
           ++ apply elem_of_cons in Ht as [->|Ht].
              ** left. left. congruence.
              ** right. exists t. split; assumption.
      * exfalso. apply (Hok s e); [left|]. split; [eauto|exact Hv].
    + simpl. destruct (IH mapping Hl) as (mapping' & Hrun & Hdom).
      exists mapping'. split; [exact Hrun|]. intros k. rewrite Hdom. split.
      * intros [H|(t & Ht & Hk)]; [left; exact H|].
        right. exists t. split; [right; exact Ht|exact Hk].
      * intros [H|(t & Ht & Hk)]; [left; exact H|].
        apply elem_of_cons in Ht as [->|Ht]; [congruence|].
        right. exists t. split; assumption.
Qed.

(** Artifacts with other keys leave the entry of a key as it is. *)
Lemma for_svgs_lookup_other (l : list svg_file) (mapping mapping' : gmap string star)
    (k : string) :
  for_svgs float l mapping = Return mapping' →
  (∀ s, s ∈ l → frame_key s ≠ Some k) →
  mapping' !! k = mapping !! k.
Proof.
  revert mapping. induction l as [|s l IH]; intros mapping Hrun Hother.
  - simpl in Hrun. congruence.
  - simpl in Hrun. rewrite loop_body_spec in Hrun.
    assert (Hl : ∀ t, t ∈ l → frame_key t ≠ Some k).
    { intros t Ht. apply Hother. right. exact Ht. }
    destruct (frame_key s) as [ks|] eqn:Hks.
    + destruct (recovered float s) as [v|e]; [|discriminate].
      simpl in Hrun. rewrite (IH _ Hrun Hl).
      apply lookup_insert_ne. intros ->. apply (Hother s); [left|exact Hks].
    + simpl in Hrun. apply (IH _ Hrun Hl).
Qed.

(** The entry of a key is the record of the last artifact stored under it. *)
Lemma for_svgs_lookup_last (before after : list svg_file) (svg : svg_file)
    (mapping mapping' : gmap string star) (k : string) (v : star) :
  for_svgs float (before ++ svg :: after) mapping = Return mapping' →
  frame_key svg = Some k →
  recovered float svg = Return v →
  (∀ s, s ∈ after → frame_key s ≠ Some k) →
  mapping' !! k = Some v.
Proof.
  intros Hrun Hk Hv Hafter. rewrite for_svgs_app in Hrun.
  destruct (for_svgs float before mapping) as [m1|e]; [|discriminate].
  simpl in Hrun. rewrite loop_body_spec, Hk, Hv in Hrun. simpl in Hrun.
  rewrite (for_svgs_lookup_other _ _ _ _ Hrun Hafter).
  apply lookup_insert_eq.
Qed.

Lemma main_for_svgs (fs : files) :
  plots_dir_exists fs = true →
  main float fs
  = mapping ← for_svgs float (svgs fs) ∅;
    Return {| written := mapping;
              entries_printed := size mapping;
              exit_status := 0 |}.
Proof. intros Hdir. unfold main. rewrite Hdir. reflexivity. Qed.

End Batch.

(** *** The sample frames *)

Ltac decide_R := repeat (case_decide; try (exfalso; lra)).

(** The scenario of the sample frame: the marker at pixel (300, 250) is the
    point (0, 1) of the data. *)
Lemma recovered_frame (n : string) :
  recovered float_decimal
    {| name := n; read_text := frame_svg "300,240 310,255 290,255" |}
  = Return {| x1 := 0; x2 := 1 |}.
Proof.
  unfold recovered, _extract_ticks, _extract_star_xy. cbn [read_text].
  assert (Hx : list_comprehension (tick_of_match float_decimal)
                 (finditer X_TICK_TEXT_RE (frame_svg "300,240 310,255 290,255"))
               = Return [(100, -10 / 10); (500, 10 / 10)])
    by (vm_compute; reflexivity).
  assert (Hy : list_comprehension (tick_of_match float_decimal)
                 (finditer Y_TICK_TEXT_RE (frame_svg "300,240 310,255 290,255"))
               = Return [(50, 20 / 10); (450, 0 / 10)])
    by (vm_compute; reflexivity).
  assert (Hs : search STAR_POLY_RE (frame_svg "300,240 310,255 290,255")
               = Some ["300,240 310,255 290,255"])
    by (vm_compute; reflexivity).
  assert (Hp : _parse_points float_decimal (group ["300,240 310,255 290,255"] 1)
               = [(300, 240); (310, 255); (290, 255)])
    by (vm_compute; reflexivity).
  rewrite Hx, Hy, Hs, Hp. simpl. decide_R. simpl. decide_R. simpl.
  unfold Affine1D_call, sum. simpl. f_equal. f_equal; lra.
Qed.

Lemma recovered_frame_left (n : string) :
  recovered float_decimal {| name := n; read_text := frame_svg "200,150" |}
  = Return {| x1 := -0.5; x2 := 1.5 |}.
Proof.
  unfold recovered, _extract_ticks, _extract_star_xy. cbn [read_text].
  assert (Hx : list_comprehension (tick_of_match float_decimal)
                 (finditer X_TICK_TEXT_RE (frame_svg "200,150"))
               = Return [(100, -10 / 10); (500, 10 / 10)])
    by (vm_compute; reflexivity).
  assert (Hy : list_comprehension (tick_of_match float_decimal)
                 (finditer Y_TICK_TEXT_RE (frame_svg "200,150"))
               = Return [(50, 20 / 10); (450, 0 / 10)])
    by (vm_compute; reflexivity).
  assert (Hs : search STAR_POLY_RE (frame_svg "200,150") = Some ["200,150"])
    by (vm_compute; reflexivity).
  assert (Hp : _parse_points float_decimal (group ["200,150"] 1) = [(200, 150)])
    by (vm_compute; reflexivity).
  rewrite Hx, Hy, Hs, Hp. simpl. decide_R. simpl. decide_R. simpl.
  unfold Affine1D_call, sum. simpl. f_equal. f_equal; lra.
Qed.

Lemma frame_never_fails (n : string) (e : exn) :
  ¬ fails float_decimal
      {| name := n; read_text := frame_svg "300,240 310,255 290,255" |} e.
Proof. intros [_ He]. rewrite recovered_frame in He. discriminate. Qed.

Lemma no_ticks_fails :
  fails float_decimal
    {| name := "expected_info_gain_step_002.svg"; read_text := no_ticks_svg |}
    (ValueError "Could not find enough axis ticks").
Proof.
  split.
  - exists "2". vm_compute. reflexivity.
  - unfold recovered, _extract_ticks. cbn [read_text].
    assert (Hx : finditer X_TICK_TEXT_RE no_ticks_svg = [])
      by (vm_compute; reflexivity).
    assert (Hy : finditer Y_TICK_TEXT_RE no_ticks_svg = [])
      by (vm_compute; reflexivity).
    rewrite Hx, Hy. reflexivity.
Qed.

Lemma no_star_fails :
  fails float_decimal
    {| name := "expected_info_gain_step_001.svg"; read_text := no_star_svg |}
    (ValueError "Star polygon not found").
Proof.
  split.
  - exists "1". vm_compute. reflexivity.
  - unfold recovered, _extract_ticks, _extract_star_xy. cbn [read_text].
    assert (Hx : list_comprehension (tick_of_match float_decimal)
                   (finditer X_TICK_TEXT_RE no_star_svg)
                 = Return [(100, -10 / 10); (500, 10 / 10)])
      by (vm_compute; reflexivity).
    assert (Hy : list_comprehension (tick_of_match float_decimal)
                   (finditer Y_TICK_TEXT_RE no_star_svg)
                 = Return [(50, 20 / 10); (450, 0 / 10)])
      by (vm_compute; reflexivity).
    assert (Hs : search STAR_POLY_RE no_star_svg = None)
      by (vm_compute; reflexivity).
    rewrite Hx, Hy, Hs. simpl. decide_R. simpl. decide_R. reflexivity.
Qed.

(** *** The ways an extraction fails *)

Lemma extract_ticks_insufficient (float : string → option R) (svg_text : string)
    (x_ticks y_ticks : list (R * R)) :
  list_comprehension (tick_of_match float) (finditer X_TICK_TEXT_RE svg_text)
  = Return x_ticks →
  list_comprehension (tick_of_match float) (finditer Y_TICK_TEXT_RE svg_text)
  = Return y_ticks →
  (length x_ticks < 2 ∨ length y_ticks < 2)%nat →
  _extract_ticks float svg_text
  = Raise (ValueError "Could not find enough axis ticks").
Proof.
  intros Hx Hy Hlen. unfold _extract_ticks. rewrite Hx, Hy. simpl.
  destruct Hlen as [H|H].
  - apply Nat.ltb_lt in H. rewrite H. reflexivity.
  - apply Nat.ltb_lt in H. rewrite H, orb_true_r. reflexivity.
Qed.

Lemma extract_star_missing (float : string → option R) (svg_text : string) :
  search STAR_POLY_RE svg_text = None →
  _extract_star_xy float svg_text = Raise (ValueError "Star polygon not found").
Proof. intros H. unfold _extract_star_xy. rewrite H. reflexivity. Qed.

Lemma extract_star_no_vertex (float : string → option R) (svg_text : string)
    (m : list string) :
  search STAR_POLY_RE svg_text = Some m →
  usable_vertices float (group m 1) = [] →
  _extract_star_xy float svg_text = Raise (ValueError "No points").
Proof.
  intros Hm Hv. unfold _extract_star_xy.
  rewrite Hm, parse_points_usable, Hv. reflexivity.
Qed.

Lemma same_pixel_fails (n : string) :
  recovered float_decimal {| name := n; read_text := same_pixel_svg |}
  = Raise (ValueError "Degenerate affine fit").
Proof.
  unfold recovered, _extract_ticks. cbn [read_text].
  assert (Hx : list_comprehension (tick_of_match float_decimal)
                 (finditer X_TICK_TEXT_RE same_pixel_svg)
               = Return [(100, -10 / 10); (100, 10 / 10)])
    by (vm_compute; reflexivity).
  assert (Hy : list_comprehension (tick_of_match float_decimal)
                 (finditer Y_TICK_TEXT_RE same_pixel_svg)
               = Return [(50, 20 / 10); (450, 0 / 10)])
    by (vm_compute; reflexivity).
  rewrite Hx, Hy. simpl. decide_R. simpl. decide_R. reflexivity.
Qed.

Lemma no_vertex_fails (n : string) :
  recovered float_decimal {| name := n; read_text := no_vertex_svg |}
  = Raise (ValueError "No points").
Proof.
  assert (Hstar : _extract_star_xy float_decimal no_vertex_svg
                  = Raise (ValueError "No points")).
  { apply (extract_star_no_vertex float_decimal no_vertex_svg
             ["300;240 none 1,2,3"]); vm_compute; reflexivity. }
  unfold recovered. cbn [read_text]. rewrite Hstar. unfold _extract_ticks.
  assert (Hx : list_comprehension (tick_of_match float_decimal)
                 (finditer X_TICK_TEXT_RE no_vertex_svg)
               = Return [(100, -10 / 10); (500, 10 / 10)])
    by (vm_compute; reflexivity).
  assert (Hy : list_comprehension (tick_of_match float_decimal)
                 (finditer Y_TICK_TEXT_RE no_vertex_svg)
               = Return [(50, 20 / 10); (450, 0 / 10)])
    by (vm_compute; reflexivity).
  rewrite Hx, Hy. simpl. decide_R. simpl. decide_R. reflexivity.
Qed.

(** *** Failures and collisions in a batch *)

(** C1, as the claim states it, fails: of five frames the third has no tick
    label; the run raises the error of that frame, so it writes no mapping
    (neither four entries nor any) and returns no status. *)
Lemma five_frames_run_raises :
  main float_decimal five_frames
  = Raise (ValueError "Could not find enough axis ticks").
Proof.
  rewrite main_for_svgs by reflexivity.
  change (svgs five_frames) with
    ([ {| name := "expected_info_gain_step_000.svg";
          read_text := frame_svg "300,240 310,255 290,255" |};
       {| name := "expected_info_gain_step_001.svg";
          read_text := frame_svg "300,240 310,255 290,255" |} ]
     ++ {| name := "expected_info_gain_step_002.svg"; read_text := no_ticks_svg |}
     :: [ {| name := "expected_info_gain_step_003.svg";
             read_text := frame_svg "300,240 310,255 290,255" |};
          {| name := "expected_info_gain_step_004.svg";
             read_text := frame_svg "300,240 310,255 290,255" |} ])%list.
  rewrite (for_svgs_raise float_decimal _ _ _
             (ValueError "Could not find enough axis ticks") ∅).
  - reflexivity.
  - intros s e' Hs.
    apply elem_of_cons in Hs as [->|Hs]; [apply frame_never_fails|].
    apply elem_of_cons in Hs as [->|Hs]; [apply frame_never_fails|].
    inversion Hs.
  - exact no_ticks_fails.
Qed.

(** C1, amended.  An extraction failure is not caught in [main]: the
    exception of the first failing artifact, in the order of the loop, ends
    the run, which writes nothing and returns no status.  Only an artifact
    whose name carries no step index is passed over.  When no artifact
    fails, the run returns 0 and the mapping it writes has a key for the
    frame index of every artifact, and no other. *)
Theorem extraction_failure_ends_run (float : string → option R) (fs : files) :
  plots_dir_exists fs = true →
  (∀ before svg after e,
     svgs fs = (before ++ svg :: after)%list →
     (∀ s e', s ∈ before → ¬ fails float s e') →
     fails float svg e →
     main float fs = Raise e)
  ∧ ((∀ s e, s ∈ svgs fs → ¬ fails float s e) →
     ∃ r, main float fs = Return r
          ∧ exit_status r = 0%Z
          ∧ entries_printed r = size (written r)
          ∧ ∀ k, is_Some (written r !! k)
                 ↔ ∃ s, s ∈ svgs fs ∧ frame_key s = Some k).
Proof.
  intros Hdir. rewrite (main_for_svgs float fs Hdir). split.
  - intros before svg after e -> Hok Hsvg.
    rewrite (for_svgs_raise float before after svg e ∅ Hok Hsvg). reflexivity.
  - intros Hok.
    destruct (for_svgs_returns float (svgs fs) ∅ Hok) as (mapping & -> & Hdom).
    eexists. split; [reflexivity|]. simpl.
    split; [reflexivity|]. split; [reflexivity|].
    intros k. rewrite Hdom, lookup_empty. split.
    + intros [[v Hv]|H]; [discriminate|exact H].
    + intros H. right. exact H.
Qed.

Lemma extraction_failure_ends_run_witness :
  main float_decimal two_frames = Raise (ValueError "Star polygon not found").
Proof.
  assert (Hdir : plots_dir_exists two_frames = true) by reflexivity.
  destruct (extraction_failure_ends_run float_decimal two_frames Hdir)
    as [Hraise _].
  apply (Hraise
           [ {| name := "expected_info_gain_step_000.svg";
                read_text := frame_svg "300,240 310,255 290,255" |} ]
           {| name := "expected_info_gain_step_001.svg";
              read_text := no_star_svg |}
           []).
  - reflexivity.
  - intros s e' Hs.
    apply elem_of_cons in Hs as [->|Hs]; [apply frame_never_fails|].
    inversion Hs.
  - exact no_star_fails.
Defined.

(** C5, as the claim states it, fails: two files whose names end in the same
    step index are both read; the run returns 0 and prints one entry, the
    record of the second file, and nothing tells of the first. *)
Lemma colliding_frames_overwrite :
  main float_decimal colliding_frames
  = Return {| written := {[ "1" := {| x1 := -0.5; x2 := 1.5 |} ]};
              entries_printed := 1;
              exit_status := 0 |}
  ∧ recovered float_decimal
      {| name := "a_step_001.svg";
         read_text := frame_svg "300,240 310,255 290,255" |}
    = Return {| x1 := 0; x2 := 1 |}.
Proof.
  split; [|apply recovered_frame].
  rewrite main_for_svgs by reflexivity.
  change (svgs colliding_frames) with
    [ {| name := "a_step_001.svg";
         read_text := frame_svg "300,240 310,255 290,255" |};
      {| name := "b_step_001.svg"; read_text := frame_svg "200,150" |} ].
  cbn [for_svgs]. rewrite !loop_body_spec.
  assert (Ha : ∀ t, frame_key {| name := "a_step_001.svg"; read_text := t |}
                    = Some "1") by (intros t; vm_compute; reflexivity).
  assert (Hb : ∀ t, frame_key {| name := "b_step_001.svg"; read_text := t |}
                    = Some "1") by (intros t; vm_compute; reflexivity).
  rewrite Ha, recovered_frame. simpl.
  rewrite loop_body_spec, Hb, recovered_frame_left. simpl.
  rewrite insert_insert_eq, insert_empty, map_size_singleton. reflexivity.
Qed.

(** C5, amended.  When two artifacts of a set parse to the same frame index
    and no extraction fails, nothing is flagged: the run returns 0, and the
    entry written under that index is the record of the later artifact. *)
Theorem duplicate_frame_index_overwrites (float : string → option R) (fs : files)
    (before mid after : list svg_file) (s1 s2 : svg_file) (k : string)
    (v1 v2 : star) :
  plots_dir_exists fs = true →
  svgs fs = (before ++ s1 :: mid ++ s2 :: after)%list →
  (∀ s e, s ∈ svgs fs → ¬ fails float s e) →
  frame_key s1 = Some k → recovered float s1 = Return v1 →
  frame_key s2 = Some k → recovered float s2 = Return v2 →
  (∀ s, s ∈ after → frame_key s ≠ Some k) →
  ∃ r, main float fs = Return r
       ∧ exit_status r = 0%Z
       ∧ written r !! k = Some v2.
Proof.
  intros Hdir Hsvgs Hok Hk1 Hv1 Hk2 Hv2 Hafter.
  rewrite (main_for_svgs float fs Hdir).
  destruct (for_svgs_returns float (svgs fs) ∅ Hok) as (mapping & Hrun & _).
  rewrite Hrun. eexists. split; [reflexivity|]. simpl.
  split; [reflexivity|].
  rewrite Hsvgs in Hrun.
  change (before ++ s1 :: mid ++ s2 :: after)%list
    with (before ++ (s1 :: mid) ++ s2 :: after)%list in Hrun.
  rewrite app_assoc in Hrun.
  exact (for_svgs_lookup_last float _ _ _ _ _ _ _ Hrun Hk2 Hv2 Hafter).
Qed.

Lemma duplicate_frame_index_overwrites_witness :
  ∃ r, main float_decimal colliding_frames = Return r
       ∧ exit_status r = 0%Z
       ∧ written r !! "1" = Some {| x1 := -0.5; x2 := 1.5 |}.
Proof.
  apply (duplicate_frame_index_overwrites float_decimal colliding_frames
           [] [] []
           {| name := "a_step_001.svg";
              read_text := frame_svg "300,240 310,255 290,255" |}
           {| name := "b_step_001.svg"; read_text := frame_svg "200,150" |}
           "1" {| x1 := 0; x2 := 1 |} {| x1 := -0.5; x2 := 1.5 |}).
  - reflexivity.
  - reflexivity.
  - intros s e Hs [_ He]. change (svgs colliding_frames) with
      [ {| name := "a_step_001.svg";
           read_text := frame_svg "300,240 310,255 290,255" |};
        {| name := "b_step_001.svg"; read_text := frame_svg "200,150" |} ] in Hs.
    apply elem_of_cons in Hs as [->|Hs].
    { rewrite recovered_frame in He. discriminate. }
    apply elem_of_cons in Hs as [->|Hs].
    { rewrite recovered_frame_left in He. discriminate. }
    inversion Hs.
  - vm_compute. reflexivity.
  - apply recovered_frame.
  - vm_compute. reflexivity.
  - apply recovered_frame_left.
  - intros s Hs. inversion Hs.
Defined.

End ExtractStarProofs.

(** ** Properties of the figure synthesis *)

Module PartitionFigureProofs.
Import Py PyProofs PartitionFigure.

(** *** The vertical scales *)


(** *** The curves *)

Lemma gauss_points_lookup (i : nat) :
  (i < 241)%nat →
  gauss_points !! i
  = Some (gx (x_min + (x_max - x_min) * INR i / 240.0),
          gy (stdnorm_pdf (x_min + (x_max - x_min) * INR i / 240.0))).
Proof.
  intros Hi. unfold gauss_points. rewrite lookup_map_seq by exact Hi.
  reflexivity.
Qed.

Lemma highlight_points_lookup (i : nat) :
  (i < 81)%nat →
  highlight_points !! S i
  = Some (gx (highlight_left + (highlight_right - highlight_left) * INR i / 80.0),
          gy (stdnorm_pdf
                (highlight_left + (highlight_right - highlight_left) * INR i / 80.0))).
Proof.
  intros Hi. unfold highlight_points.
  change (([?p] ++ ?l) !! S i) with (l !! i).
  rewrite lookup_app_l by (rewrite length_map, length_seq; exact Hi).
  rewrite lookup_map_seq by exact Hi. reflexivity.
Qed.

(** *** The bins *)

(** The probabilities of a non-empty list of edges: the left tail, the
    differences of consecutive edges, the right tail. *)
Lemma partition_probabilities_cons (cdf : R → R) (b0 : R) (rest : list R) :
  partition_probabilities cdf (b0 :: rest)
  = Return (cdf b0
            :: map (λ i : nat, cdf (nth (i + 1) (b0 :: rest) 0)
                               - cdf (nth i (b0 :: rest) 0))
                   (seq 0 (length rest))
            ++ [1.0 - cdf (List.last (b0 :: rest) 0)]).
Proof.
  unfold partition_probabilities, bins, item_last.
  assert (Hlast : last (b0 :: rest) = Some (List.last (b0 :: rest) 0)).
  { generalize b0. induction rest as [|b1 rest IH]; intros c; [reflexivity|].
    exact (IH b1). }
  rewrite Hlast. cbn [item_first mbind result_bind].
  change (length (b0 :: rest) - 1)%nat with (length rest - 0)%nat.
  rewrite Nat.sub_0_r.
  change (list_comprehension (bin_probability cdf)
            ((None, Some b0)
             :: (map (λ i : nat, (Some (nth i (b0 :: rest) 0),
                                  Some (nth (i + 1) (b0 :: rest) 0)))
                     (seq 0 (length rest))
                 ++ [(Some (List.last (b0 :: rest) 0), None)]))
          = Return (cdf b0
                    :: map (λ i : nat, cdf (nth (i + 1) (b0 :: rest) 0)
                                       - cdf (nth i (b0 :: rest) 0))
                           (seq 0 (length rest))
                    ++ [1.0 - cdf (List.last (b0 :: rest) 0)])).
  cbn [list_comprehension bin_probability mbind result_bind].
  erewrite list_comprehension_app; [reflexivity| |reflexivity].
  apply list_comprehension_map. intros i. reflexivity.
Qed.

(** The differences of consecutive edges add up to the difference of the
    last and the first. *)
Lemma differences_telescope (cdf : R → R) (l : list R) (n : nat) :
  foldr Rplus 0
    (map (λ i : nat, cdf (nth (i + 1) l 0) - cdf (nth i l 0)) (seq 0 n))
  = cdf (nth n l 0) - cdf (nth 0 l 0).
Proof.
  induction n as [|n IH].
  - simpl. lra.
  - rewrite seq_S, map_app, foldr_app. simpl.
    replace (n + 1)%nat with (S n) by lia.
    assert (Hacc : ∀ (k : list R) (x : R),
               foldr Rplus x k = foldr Rplus 0 k + x).
    { induction k as [|y k IHk]; intros x; simpl; [lra|]. rewrite IHk. lra. }
    rewrite Hacc, IH. lra.
Qed.

Lemma last_nth (l : list R) (b0 : R) :
  List.last (b0 :: l) 0 = nth (length l) (b0 :: l) 0.
Proof.
  revert b0. induction l as [|b1 l IH]; intros b0; [reflexivity|].
  exact (IH b1).
Qed.

Lemma sum_app_foldr (l1 l2 : list R) :
  foldr Rplus 0 (l1 ++ l2) = foldr Rplus 0 l1 + foldr Rplus 0 l2.
Proof. induction l1 as [|x l1 IH]; simpl; [lra|]. rewrite IH. lra. Qed.

(** C6.  For the edges b0, ..., bn and a distribution function the
    probabilities are n + 2 values: cdf(b0) for the left tail, the
    difference cdf(b_(i+1)) - cdf(b_i) for each inner bin, 1 - cdf(bn) for
    the right tail; they add up to 1.  For the seven edges -1.2, ..., 1.2
    and the standard normal distribution function they are 8 values whose
    sum is within 1e-9 of 1. *)
Theorem partition_probabilities_complete :
  (∀ (cdf : R → R) (b0 : R) (rest : list R),
     ∃ ps, partition_probabilities cdf (b0 :: rest) = Return ps
           ∧ length ps = (length (b0 :: rest) + 1)%nat
           ∧ ps !! 0%nat = Some (cdf b0)
           ∧ (∀ i, (i + 1 < length (b0 :: rest))%nat →
                   ps !! (i + 1)%nat
                   = Some (cdf (nth (i + 1) (b0 :: rest) 0)
                           - cdf (nth i (b0 :: rest) 0)))
           ∧ ps !! length (b0 :: rest)
             = Some (1 - cdf (List.last (b0 :: rest) 0))
           ∧ sum ps = 1)
  ∧ ∃ ps, partition_probabilities stdnorm_cdf
            [-1.2; -0.8; -0.4; 0; 0.4; 0.8; 1.2] = Return ps
          ∧ length ps = 8%nat
          ∧ Rabs (sum ps - 1) <= 1e-9.
Proof.
  assert (Hgen : ∀ (cdf : R → R) (b0 : R) (rest : list R),
     ∃ ps, partition_probabilities cdf (b0 :: rest) = Return ps
           ∧ length ps = (length (b0 :: rest) + 1)%nat
           ∧ ps !! 0%nat = Some (cdf b0)
           ∧ (∀ i, (i + 1 < length (b0 :: rest))%nat →
                   ps !! (i + 1)%nat
                   = Some (cdf (nth (i + 1) (b0 :: rest) 0)
                           - cdf (nth i (b0 :: rest) 0)))
           ∧ ps !! length (b0 :: rest)
             = Some (1 - cdf (List.last (b0 :: rest) 0))
           ∧ sum ps = 1).
  { intros cdf b0 rest. eexists. split; [apply partition_probabilities_cons|].
    split.
    { simpl. rewrite length_app, length_map, length_seq. simpl. lia. }
    split; [reflexivity|].
    split.
    { intros i Hi. simpl in Hi.
      rewrite Nat.add_1_r.
      change ((?x :: ?l) !! S i) with (l !! i).
      rewrite lookup_app_l by (rewrite length_map, length_seq; lia).
      rewrite lookup_map_seq by lia.
      cbn [Nat.add]. rewrite Nat.add_1_r. reflexivity. }
    split.
    { change ((?x :: ?l) !! length (b0 :: rest)) with (l !! length rest).
      rewrite lookup_app_r by (rewrite length_map, length_seq; lia).
      rewrite length_map, length_seq, Nat.sub_diag. simpl. f_equal. lra. }
    rewrite sum_foldr. cbn [fold_right].
    rewrite sum_app_foldr, differences_telescope, last_nth.
    cbn [fold_right nth]. lra. }
  split; [exact Hgen|].
  destruct (Hgen stdnorm_cdf (-1.2) [-0.8; -0.4; 0; 0.4; 0.8; 1.2])
    as (ps & Hps & Hlen & _ & _ & _ & Hsum).
  exists ps. split; [exact Hps|]. split; [exact Hlen|].
  rewrite Hsum. replace (1 - 1) with 0 by lra. rewrite Rabs_R0. lra.
Qed.

(** *** The run of [main] itself *)

Lemma erf_0 : erf 0 = 0.
Proof.
  unfold erf. destruct (Rle_dec 0 0) as [H|H]; [|exfalso; lra].
  rewrite RiemannInt_P9. lra.
Qed.

Lemma stdnorm_cdf_0 : stdnorm_cdf 0 = 0.5.
Proof.
  unfold stdnorm_cdf. replace (0 / sqrt 2.0) with 0 by (unfold Rdiv; ring).
  rewrite erf_0. lra.
Qed.

Lemma Int_part_IZR (z : Z) : Int_part (IZR z) = z.
Proof. symmetry. apply Int_part_spec. lra. Qed.

Lemma round_half_even_IZR (z : Z) : round_half_even (IZR z) = z.
Proof.
  unfold round_half_even. rewrite Int_part_IZR.
  destruct (decide (IZR z - IZR z < 1 / 2)) as [_|H]; [reflexivity|].
  exfalso. apply H. lra.
Qed.

Lemma round_exact (x : R) (ndigits : nat) (z : Z) :
  x * 10 ^ ndigits = IZR z → round x ndigits = IZR z / 10 ^ ndigits.
Proof. intros H. unfold round. rewrite H, round_half_even_IZR. reflexivity. Qed.

Lemma k_min_eq : k_min = (-7)%Z.
Proof.
  unfold k_min, ceil.
  replace (Int_part (- (x_min / delta))) with 7%Z; [reflexivity|].
  apply Int_part_spec. unfold x_min, delta. lra.
Qed.

Lemma k_max_eq : k_max = 7%Z.
Proof.
  unfold k_max, floor. symmetry. apply Int_part_spec. unfold x_max, delta. lra.
Qed.

Lemma round_delta (k : Z) : round (delta * IZR k) 10 = 0.4 * IZR k.
Proof.
  rewrite (round_exact _ _ (4000000000 * k)%Z).
  - rewrite mult_IZR. simpl. lra.
  - rewrite mult_IZR. unfold delta. simpl. lra.
Qed.

(** The edges of [main]: the fifteen multiples of 0.4 from -2.8 to 2.8. *)
Lemma x_lines_eq :
  x_lines = [-2.8; -2.4; -2.0; -1.6; -1.2; -0.8; -0.4; 0;
             0.4; 0.8; 1.2; 1.6; 2.0; 2.4; 2.8].
Proof.
  unfold x_lines. rewrite k_min_eq, k_max_eq.
  change (seqZ (-7) (7 + 1 - -7))
    with [-7; -6; -5; -4; -3; -2; -1; 0; 1; 2; 3; 4; 5; 6; 7]%Z.
  cbn [map]. rewrite !round_delta.
  repeat (f_equal; [lra|]). f_equal. lra.
Qed.

(** Neither check of [main] stops the run. *)
Lemma checks_pass : checks = Return ().
Proof.
  unfold checks. rewrite x_lines_eq.
  destruct (decide _) as [_|H].
  - destruct (decide (bar_plot_h < 160)) as [H|_]; [|reflexivity].
    exfalso.
    unfold bar_plot_h, height, margin_top, margin_bottom, top_plot_h,
      middle_gap in H.
    lra.
  - exfalso. apply H. unfold highlight_left, highlight_right. split.
    + do 10 right. left.
    + do 11 right. left.
Qed.

(** The bars of [main]: sixteen probabilities that add up to 1. *)
Lemma probs_of_main :
  ∃ ps, probs = Return ps ∧ length ps = 16%nat ∧ sum ps = 1.
Proof.
  unfold probs. rewrite x_lines_eq, partition_probabilities_cons.
  eexists. split; [reflexivity|]. split; [reflexivity|].
  rewrite sum_foldr. cbn [fold_right].
  rewrite sum_app_foldr, differences_telescope, last_nth.
  cbn [fold_right nth length]. lra.
Qed.

End PartitionFigureProofs.

(** ** What rounding decides

    The statements of the two scripts that hold in exact arithmetic and not
    in binary64, with what binary64 gives instead. *)

Module Binary64Proofs.
Import Py Binary64.
Import PrimFloat.
#[local] Open Scope float_scope.
#[local] Set Warnings "-inexact-float".


(** *** The affine fit *)

Section Fit.
Import ExtractStar64.


(** C4, as the claim states it, fails: three fits return a map, one of slope
    0 between equal values, one of slope 0 between different values, whose
    quotient underflows, and one of infinite slope, whose difference of
    values overflows. *)
Lemma fit_slope_zero_or_infinite :
  _fit_affine (0, 1) (1, 1) = Return {| a := 0; b := 1 |}
  ∧ ((5e-324 =? 0) = false
     ∧ _fit_affine (0, 0) (4, 5e-324) = Return {| a := 0; b := 0 |})
  ∧ ∃ m, _fit_affine (0, -1.7e308) (1, 1.7e308) = Return m
         ∧ a m = infinity ∧ is_finite (a m) = false.
Proof.
  split; [vm_compute; reflexivity|].
  split; [split; vm_compute; reflexivity|].
  eexists. split; [vm_compute; reflexivity|]. split; vm_compute; reflexivity.
Qed.

(** C4, amended.  Every map the fit returns comes from two pixels that compare
    unequal; its slope is the quotient of the differences and its intercept
    is [v1 - slope * px1], each operation rounded to binary64. *)
Theorem fit_affine_slope_binary64 (px1 v1 px2 v2 : float) (m : Affine1D) :
  _fit_affine (px1, v1) (px2, v2) = Return m →
  (px2 =? px1) = false
  ∧ a m = (v2 - v1) / (px2 - px1)
  ∧ b m = v1 - a m * px1.
Proof.
  unfold _fit_affine. destruct (px2 =? px1); [discriminate|].
  intros H. injection H as <-. repeat split.
Qed.

Lemma fit_affine_slope_binary64_witness :
  (1 =? 0) = false
  ∧ a {| a := 0; b := 1 |} = (1 - 1) / (1 - 0)
  ∧ b {| a := 0; b := 1 |} = 1 - a {| a := 0; b := 1 |} * 0.
Proof.
  apply (fit_affine_slope_binary64 0 1 1 1 {| a := 0; b := 1 |}).
  vm_compute. reflexivity.
Defined.


End Fit.

(** *** The figure *)

Section Figure.
Import PartitionFigure64.






End Figure.
End Binary64Proofs.

(** ** Further properties of the coordinate recovery *)

Module ExtractStarExtra.
Import Py PyProofs ExtractStar ExtractStarProofs.

#[local] Open Scope string_scope.

(** *** The fitted map *)

(** X1.  The map fitted through two reference pairs with distinct pixels is
    the linear interpolation of the two pairs, and fitting the pairs in the
    other order gives a map with the same values. *)
Theorem fit_affine_interpolates (px1 v1 px2 v2 : R) :
  px1 ≠ px2 →
  ∃ m m', _fit_affine (px1, v1) (px2, v2) = Return m
          ∧ _fit_affine (px2, v2) (px1, v1) = Return m'
          ∧ ∀ px, Affine1D_call m px = v1 + (v2 - v1) * (px - px1) / (px2 - px1)
                  ∧ Affine1D_call m' px = Affine1D_call m px.
Proof.
  intros Hne. eexists. eexists.
  split; [apply fit_affine_distinct, Hne|].
  split; [apply fit_affine_distinct; congruence|].
  intros px. unfold Affine1D_call. simpl. split; field; lra.
Qed.

Lemma fit_affine_interpolates_witness :
  ∃ m m', _fit_affine (50, 2) (450, 0) = Return m
          ∧ _fit_affine (450, 0) (50, 2) = Return m'
          ∧ ∀ px, Affine1D_call m px = 2 + (0 - 2) * (px - 50) / (450 - 50)
                  ∧ Affine1D_call m' px = Affine1D_call m px.
Proof. apply (fit_affine_interpolates 50 2 450 0). lra. Defined.

(** X2.  In exact arithmetic (floats idealised as reals) the fitted map is
    the only affine map through the two reference pairs: a map that takes the
    two values at the two pixels has the slope and the intercept of the
    fit. *)
Theorem fit_affine_unique (px1 v1 px2 v2 : R) (m m' : Affine1D) :
  _fit_affine (px1, v1) (px2, v2) = Return m →
  Affine1D_call m' px1 = v1 →
  Affine1D_call m' px2 = v2 →
  a m' = a m ∧ b m' = b m.
Proof.
  intros Hfit H1 H2.
  destruct (fit_affine_inv _ _ _ Hfit) as (Hne & Ha & Hb). simpl in *.
  unfold Affine1D_call in H1, H2.
  assert (Hd : px2 - px1 ≠ 0) by lra.
  assert (Hs : a m' = a m).
  { rewrite Ha. apply Rmult_eq_reg_r with (r := px2 - px1); [|exact Hd].
    unfold Rdiv. rewrite Rmult_assoc, Rinv_l by exact Hd. lra. }
  split; [exact Hs|]. rewrite Hb, <- Hs. lra.
Qed.

Lemma fit_affine_unique_witness :
  a {| a := 1 / 200; b := -3 / 2 |}
  = a {| a := (1 - -1) / (500 - 100);
         b := -1 - (1 - -1) / (500 - 100) * 100 |}
  ∧ b {| a := 1 / 200; b := -3 / 2 |}
    = b {| a := (1 - -1) / (500 - 100);
           b := -1 - (1 - -1) / (500 - 100) * 100 |}.
Proof.
  apply (fit_affine_unique 100 (-1) 500 1).
  - apply fit_affine_distinct. lra.
  - unfold Affine1D_call. simpl. lra.
  - unfold Affine1D_call. simpl. lra.
Defined.

(** X3.  In exact arithmetic (floats idealised as reals) the fitted map
    follows the direction of the axis: when the value grows with the pixel
    between the two reference pairs the map is strictly increasing, and when
    it falls (the Y axis of a plot, whose pixels grow downward) the map is
    strictly decreasing. *)
Theorem fit_affine_direction (px1 v1 px2 v2 : R) (m : Affine1D) :
  px1 < px2 →
  _fit_affine (px1, v1) (px2, v2) = Return m →
  (v1 < v2 → ∀ p q, p < q → Affine1D_call m p < Affine1D_call m q)
  ∧ (v2 < v1 → ∀ p q, p < q → Affine1D_call m q < Affine1D_call m p).
Proof.
  intros Hlt Hfit.
  destruct (fit_affine_inv _ _ _ Hfit) as (_ & Ha & _). simpl in Ha.
  assert (Hd : 0 < / (px2 - px1)) by (apply Rinv_0_lt_compat; lra).
  unfold Affine1D_call. split.
  - intros Hv p q Hpq.
    assert (Hs : 0 < a m).
    { rewrite Ha. unfold Rdiv. apply Rmult_lt_0_compat; lra. }
    nra.
  - intros Hv p q Hpq.
    assert (Hs : a m < 0).
    { rewrite Ha. unfold Rdiv.
      replace ((v2 - v1) * / (px2 - px1)) with (- ((v1 - v2) * / (px2 - px1)))
        by ring.
      assert (0 < (v1 - v2) * / (px2 - px1)) by (apply Rmult_lt_0_compat; lra).
      lra. }
    nra.
Qed.

Lemma fit_affine_direction_witness :
  50 < 450
  ∧ ∀ p q, p < q →
      Affine1D_call {| a := (0 - 2) / (450 - 50);
                       b := 2 - (0 - 2) / (450 - 50) * 50 |} q
      < Affine1D_call {| a := (0 - 2) / (450 - 50);
                         b := 2 - (0 - 2) / (450 - 50) * 50 |} p.
Proof.
  assert (Hlt : (50 : R) < 450) by lra.
  split; [exact Hlt|].
  assert (Hfit : _fit_affine (50, 2) (450, 0)
                 = Return {| a := (0 - 2) / (450 - 50);
                             b := 2 - (0 - 2) / (450 - 50) * 50 |})
    by (apply fit_affine_distinct; lra).
  destruct (fit_affine_direction 50 2 450 0 _ Hlt Hfit) as [_ Hdown].
  apply Hdown. lra.
Defined.

(** *** The centroid of permuted, shifted and scaled vertices *)

Lemma foldr_Rplus_Permutation (l l' : list R) :
  l ≡ₚ l' → foldr Rplus 0 l = foldr Rplus 0 l'.
Proof.
  induction 1 as [|x l l' _ IH|x y l|l l' l'' _ IH1 _ IH2]; simpl.
  - reflexivity.
  - rewrite IH. reflexivity.
  - lra.
  - rewrite IH1. exact IH2.
Qed.

(** X4.  In exact arithmetic (floats idealised as reals) the centroid does
    not depend on the order of the vertices. *)
Theorem centroid_permutation (pts pts' : list (R * R)) :
  pts ≡ₚ pts' → _centroid_xy pts = _centroid_xy pts'.
Proof.
  intros Hp. destruct pts as [|p pts].
  - apply Permutation_nil_l in Hp. subst. reflexivity.
  - assert (Hne : pts' ≠ []).
    { intros ->. apply Permutation_nil_r in Hp. discriminate. }
    rewrite centroid_mean by discriminate. rewrite centroid_mean by exact Hne.
    unfold mean. rewrite !length_map.
    rewrite (Permutation_length Hp).
    rewrite (foldr_Rplus_Permutation _ _ (Permutation_map fst Hp)).
    rewrite (foldr_Rplus_Permutation _ _ (Permutation_map snd Hp)).
    reflexivity.
Qed.

Lemma centroid_permutation_witness :
  _centroid_xy [(0, 0); (2, 0); (1, 2)] = _centroid_xy [(1, 2); (0, 0); (2, 0)].
Proof.
  apply (centroid_permutation [(0, 0); (2, 0); (1, 2)] [(1, 2); (0, 0); (2, 0)]).
  change [(1, 2); (0, 0); (2, 0)] with ([(1, 2)] ++ [(0, 0); (2, 0)])%list.
  change [(0, 0); (2, 0); (1, 2)] with ([(0, 0); (2, 0)] ++ [(1, 2)])%list.
  apply Permutation_app_comm.
Defined.

Lemma foldr_Rplus_affine (s dx : R) (l : list R) :
  foldr Rplus 0 (map (λ x, s * x + dx) l)
  = s * foldr Rplus 0 l + INR (length l) * dx.
Proof.
  induction l as [|x l IH].
  - simpl. lra.
  - change (length (x :: l)) with (S (length l)). rewrite S_INR. simpl.
    rewrite IH. lra.
Qed.

(** X5.  In exact arithmetic (floats idealised as reals), scaling every
    vertex by [s] and shifting it by [(dx, dy)] scales and shifts the centroid
    in the same way. *)
Theorem centroid_scale_shift (s dx dy cx cy : R) (pts : list (R * R)) :
  _centroid_xy pts = Return (cx, cy) →
  _centroid_xy (map (λ p, (s * p.1 + dx, s * p.2 + dy)) pts)
  = Return (s * cx + dx, s * cy + dy).
Proof.
  intros Hc. destruct pts as [|p pts]; [discriminate|].
  set (l := p :: pts) in *.
  rewrite centroid_mean in Hc by discriminate.
  assert (Hcx : cx = mean (map fst l)) by congruence.
  assert (Hcy : cy = mean (map snd l)) by congruence.
  rewrite Hcx, Hcy. clear Hc Hcx Hcy.
  rewrite centroid_mean by discriminate. unfold mean.
  assert (Hx : map fst (map (λ q : R * R, (s * q.1 + dx, s * q.2 + dy)) l)
               = map (λ x, s * x + dx) (map fst l))
    by (rewrite !map_map; reflexivity).
  assert (Hy : map snd (map (λ q : R * R, (s * q.1 + dx, s * q.2 + dy)) l)
               = map (λ y, s * y + dy) (map snd l))
    by (rewrite !map_map; reflexivity).
  rewrite Hx, Hy, !foldr_Rplus_affine, !length_map.
  assert (Hn : INR (length l) ≠ 0).
  { apply not_0_INR. discriminate. }
  f_equal. f_equal; field; exact Hn.
Qed.

Lemma centroid_scale_shift_witness :
  _centroid_xy (map (λ p, (2 * p.1 + 10, 2 * p.2 + 20))
                  [(0, 0); (2, 0); (1, 2)])
  = Return (2 * 1 + 10, 2 * (2 / 3) + 20).
Proof.
  apply (centroid_scale_shift 2 10 20 1 (2 / 3) [(0, 0); (2, 0); (1, 2)]).
  apply centroid_triangle.
Defined.


(** *** The ticks *)

(** The ticks of an axis: the pairs read from the matches of its pattern. *)
Definition parsed_ticks (float : string → option R) (p : pattern)
    (svg_text : string) : result (list (R * R)) :=
  list_comprehension (tick_of_match float) (finditer p svg_text).

(** A map is fitted to the extreme ticks of a list: it is what the fit
    returns for a tick of least pixel and a tick of greatest pixel, which
    stand at distinct pixels. *)
Definition through_extremes (ticks : list (R * R)) (m : Affine1D) : Prop :=
  ∃ lo hi, lo ∈ ticks ∧ hi ∈ ticks
           ∧ (∀ t, t ∈ ticks → lo.1 <= t.1 <= hi.1)
           ∧ lo.1 < hi.1
           ∧ _fit_affine (lo.1, lo.2) (hi.1, hi.2) = Return m.

Lemma sorted_ends {A : Type} (key : A → R) (l : list A) :
  l ≠ [] →
  ∃ lo hi, item_first (sorted key l) = Return lo
           ∧ item_last (sorted key l) = Return hi
           ∧ lo ∈ l ∧ hi ∈ l
           ∧ ∀ t, t ∈ l → key lo <= key t <= key hi.
Proof.
  intros Hne.
  assert (Hs : sorted key l ≠ []).
  { intros Hnil. apply Hne. apply Permutation_nil_r.
    rewrite <- Hnil. symmetry. apply sorted_Permutation. }
  destruct (sorted key l) as [|lo s] eqn:Hsorted; [congruence|].
  destruct (last (lo :: s)) as [hi|] eqn:Hlast.
  2:{ apply last_None in Hlast. discriminate. }
  exists lo, hi. unfold item_last. rewrite Hlast. cbn [item_first].
  assert (Hfirst : item_first (sorted key l) = Return lo)
    by (rewrite Hsorted; reflexivity).
  assert (Hend : item_last (sorted key l) = Return hi)
    by (unfold item_last; rewrite Hsorted, Hlast; reflexivity).
  split; [reflexivity|]. split; [reflexivity|].
  split.
  { rewrite <- (sorted_Permutation key l), Hsorted. left. }
  split.
  { rewrite <- (sorted_Permutation key l), Hsorted.
    apply last_Some_elem_of, Hlast. }
  intros t Ht. split.
  - apply (item_first_least key l lo Hfirst t Ht).
  - apply (item_last_greatest key l hi Hend t Ht).
Qed.

Lemma fit_through_extremes (ticks : list (R * R)) :
  (2 <= length ticks)%nat →
  (∃ m, (lo ← item_first (sorted fst ticks);
         hi ← item_last (sorted fst ticks);
         _fit_affine (lo.1, lo.2) (hi.1, hi.2)) = Return m
        ∧ through_extremes ticks m)
  ∨ ((lo ← item_first (sorted fst ticks);
      hi ← item_last (sorted fst ticks);
      _fit_affine (lo.1, lo.2) (hi.1, hi.2))
     = Raise (ValueError "Degenerate affine fit")
     ∧ ∀ t u, t ∈ ticks → u ∈ ticks → t.1 = u.1).
Proof.
  intros Hlen.
  assert (Hne : ticks ≠ []) by (intros ->; simpl in Hlen; lia).
  destruct (sorted_ends fst ticks Hne) as (lo & hi & -> & -> & Hlo & Hhi & Hall).
  cbn [mbind result_bind].
  destruct (decide (lo.1 = hi.1)) as [Heq|Hneq].
  - right. split.
    + rewrite Heq. apply fit_affine_equal.
    + intros t u Ht Hu.
      destruct (Hall t Ht) as [H1 H2]. destruct (Hall u Hu) as [H3 H4]. lra.
  - left. eexists. split; [apply fit_affine_distinct, Hneq|].
    exists lo, hi. split; [exact Hlo|]. split; [exact Hhi|].
    split; [exact Hall|].
    destruct (Hall hi Hhi) as [H1 _].
    split; [lra|]. apply fit_affine_distinct, Hneq.
Qed.


(** X6.  When [_extract_ticks] returns, each of the two maps is the fit of
    the extreme ticks of its axis: among the ticks read from the labels, one
    of least pixel and one of greatest pixel, which are distinct pixels. *)
Theorem extract_ticks_through_extremes (float : string → option R)
    (svg_text : string) (x_map y_map : Affine1D) :
  _extract_ticks float svg_text = Return (x_map, y_map) →
  ∃ x_ticks y_ticks,
    parsed_ticks float X_TICK_TEXT_RE svg_text = Return x_ticks
    ∧ parsed_ticks float Y_TICK_TEXT_RE svg_text = Return y_ticks
    ∧ through_extremes x_ticks x_map
    ∧ through_extremes y_ticks y_map.
Proof.
  unfold _extract_ticks, parsed_ticks. intros H.
  destruct (list_comprehension (tick_of_match float)
              (finditer X_TICK_TEXT_RE svg_text)) as [xt|e]; [|discriminate].
  destruct (list_comprehension (tick_of_match float)
              (finditer Y_TICK_TEXT_RE svg_text)) as [yt|e]; [|discriminate].
  cbn [mbind result_bind] in H.
  destruct (length xt <? 2)%nat eqn:Hx; [discriminate|].
  destruct (length yt <? 2)%nat eqn:Hy; [discriminate|].
  cbn [orb] in H. apply Nat.ltb_ge in Hx, Hy.
  exists xt, yt. split; [reflexivity|]. split; [reflexivity|].
  destruct (fit_through_extremes xt Hx) as [(mx & Hmx & Htx)|[Hmx _]];
  destruct (fit_through_extremes yt Hy) as [(my & Hmy & Hty)|[Hmy _]];
  destruct (item_first (sorted fst xt)) as [xlo|]; try discriminate;
  destruct (item_last (sorted fst xt)) as [xhi|]; try discriminate;
  cbn [mbind result_bind] in H, Hmx; rewrite Hmx in H;
  cbn [mbind result_bind] in H; try discriminate;
  destruct (item_first (sorted fst yt)) as [ylo|]; try discriminate;
  destruct (item_last (sorted fst yt)) as [yhi|]; try discriminate;
  cbn [mbind result_bind] in H, Hmy; rewrite Hmy in H;
  cbn [mbind result_bind] in H; try discriminate.
  injection H as <- <-. split; assumption.
Qed.


Lemma extract_ticks_frame (points : string) :
  parsed_ticks float_decimal X_TICK_TEXT_RE (frame_svg points)
  = Return [(100, -10 / 10); (500, 10 / 10)] →
  parsed_ticks float_decimal Y_TICK_TEXT_RE (frame_svg points)
  = Return [(50, 20 / 10); (450, 0 / 10)] →
  _extract_ticks float_decimal (frame_svg points)
  = Return ({| a := (10 / 10 - -10 / 10) / (500 - 100);
               b := -10 / 10 - (10 / 10 - -10 / 10) / (500 - 100) * 100 |},
            {| a := (0 / 10 - 20 / 10) / (450 - 50);
               b := 20 / 10 - (0 / 10 - 20 / 10) / (450 - 50) * 50 |}).
Proof.
  unfold parsed_ticks, _extract_ticks. intros -> ->.
  simpl. decide_R. simpl. decide_R. reflexivity.
Qed.

Lemma extract_ticks_through_extremes_witness :
  ∃ x_ticks y_ticks,
    parsed_ticks float_decimal X_TICK_TEXT_RE (frame_svg "200,150")
    = Return x_ticks
    ∧ parsed_ticks float_decimal Y_TICK_TEXT_RE (frame_svg "200,150")
      = Return y_ticks
    ∧ through_extremes x_ticks
        {| a := (10 / 10 - -10 / 10) / (500 - 100);
           b := -10 / 10 - (10 / 10 - -10 / 10) / (500 - 100) * 100 |}
    ∧ through_extremes y_ticks
        {| a := (0 / 10 - 20 / 10) / (450 - 50);
           b := 20 / 10 - (0 / 10 - 20 / 10) / (450 - 50) * 50 |}.
Proof.
  apply (extract_ticks_through_extremes float_decimal (frame_svg "200,150")).
  apply extract_ticks_frame; vm_compute; reflexivity.
Defined.

(** X7.  With fewer than two tick labels on either axis [_extract_ticks]
    raises its own error, whatever the other axis holds. *)
Theorem extract_ticks_needs_two_ticks (float : string → option R)
    (svg_text : string) (x_ticks y_ticks : list (R * R)) :
  parsed_ticks float X_TICK_TEXT_RE svg_text = Return x_ticks →
  parsed_ticks float Y_TICK_TEXT_RE svg_text = Return y_ticks →
  (length x_ticks < 2 ∨ length y_ticks < 2)%nat →
  _extract_ticks float svg_text
  = Raise (ValueError "Could not find enough axis ticks").
Proof. apply extract_ticks_insufficient. Qed.

Lemma extract_ticks_needs_two_ticks_witness :
  _extract_ticks float_decimal no_ticks_svg
  = Raise (ValueError "Could not find enough axis ticks").
Proof.
  apply (extract_ticks_needs_two_ticks float_decimal no_ticks_svg [] []).
  - vm_compute. reflexivity.
  - vm_compute. reflexivity.
  - left. simpl. lia.
Defined.

(** X8.  When both axes have two ticks or more and all the X ticks stand at
    one pixel, [_extract_ticks] raises the error of the degenerate fit. *)
Theorem extract_ticks_one_pixel (float : string → option R)
    (svg_text : string) (x_ticks y_ticks : list (R * R)) :
  parsed_ticks float X_TICK_TEXT_RE svg_text = Return x_ticks →
  parsed_ticks float Y_TICK_TEXT_RE svg_text = Return y_ticks →
  (2 <= length x_ticks)%nat → (2 <= length y_ticks)%nat →
  (∀ t u, t ∈ x_ticks → u ∈ x_ticks → t.1 = u.1) →
  _extract_ticks float svg_text = Raise (ValueError "Degenerate affine fit").
Proof.
  unfold parsed_ticks, _extract_ticks. intros -> -> Hx Hy Hsame.
  cbn [mbind result_bind].
  apply Nat.ltb_ge in Hx as Hx', Hy as Hy'. rewrite Hx', Hy'. cbn [orb].
  destruct (fit_through_extremes x_ticks Hx) as [(m & _ & Hm)|[Hm _]].
  - destruct Hm as (lo & hi & Hlo & Hhi & _ & Hlt & _).
    specialize (Hsame lo hi Hlo Hhi). lra.
  - destruct (item_first (sorted fst x_ticks)) as [xlo|e];
      [|cbn [mbind result_bind] in Hm |- *; congruence].
    destruct (item_last (sorted fst x_ticks)) as [xhi|e];
      [|cbn [mbind result_bind] in Hm |- *; congruence].
    cbn [mbind result_bind] in Hm |- *. rewrite Hm. reflexivity.
Qed.

Lemma extract_ticks_one_pixel_witness :
  _extract_ticks float_decimal same_pixel_svg
  = Raise (ValueError "Degenerate affine fit").
Proof.
  apply (extract_ticks_one_pixel float_decimal same_pixel_svg
           [(100, -10 / 10); (100, 10 / 10)]
           [(50, 20 / 10); (450, 0 / 10)]).
  - vm_compute. reflexivity.
  - vm_compute. reflexivity.
  - simpl. lia.
  - simpl. lia.
  - intros t u Ht Hu.
    apply elem_of_cons in Ht as [->|Ht];
      [|apply list_elem_of_singleton in Ht as ->];
    (apply elem_of_cons in Hu as [->|Hu];
      [|apply list_elem_of_singleton in Hu as ->]); reflexivity.
Defined.

Lemma list_comprehension_raises {A B : Type} (f : A → result B) (l : list A)
    (x : A) :
  x ∈ l → (∃ e, f x = Raise e) →
  ∃ y e, y ∈ l ∧ f y = Raise e ∧ list_comprehension f l = Raise e.
Proof.
  intros Hin Hx. induction l as [|z l IH]; [inversion Hin|].
  simpl. destruct (f z) as [v|e] eqn:Hz.
  - apply elem_of_cons in Hin as [->|Hin].
    { destruct Hx as [e He]. congruence. }
    destruct (IH Hin) as (y & e & Hy & Hfy & Hl).
    exists y, e. split; [right; exact Hy|]. split; [exact Hfy|].
    rewrite Hl. reflexivity.
  - exists z, e. split; [left|]. split; [exact Hz|reflexivity].
Qed.

Lemma list_comprehension_Raise_inv {A B : Type} (f : A → result B)
    (l : list A) (e : exn) :
  list_comprehension f l = Raise e → ∃ y, y ∈ l ∧ f y = Raise e.
Proof.
  induction l as [|z l IH]; [discriminate|]. simpl.
  destruct (f z) as [v|e'] eqn:Hz; cbn [mbind result_bind].
  - destruct (list_comprehension f l) as [ys|e'']; [discriminate|].
    cbn [mbind result_bind]. intros [= <-].
    destruct (IH eq_refl) as (y & Hy & Hfy). exists y. split; [right|]; assumption.
  - intros [= <-]. exists z. split; [left|exact Hz].
Qed.

Lemma tick_of_match_raises (float : string → option R) (m : list string)
    (e : exn) :
  tick_of_match float m = Raise e → ∃ msg, e = ValueError msg.
Proof.
  unfold tick_of_match, float_or_raise.
  destruct (float (group m 1)); cbn [mbind result_bind].
  - destruct (float (group m 2)); cbn [mbind result_bind]; [discriminate|].
    intros [= <-]. eauto.
  - intros [= <-]. eauto.
Qed.

(** X9.  A tick label that [float] cannot convert is not skipped: when the
    pixel or the value of a label matched on either axis does not convert,
    [_extract_ticks] raises a [ValueError]. *)
Theorem extract_ticks_bad_label (float : string → option R)
    (svg_text : string) (m : list string) :
  m ∈ finditer X_TICK_TEXT_RE svg_text ∨ m ∈ finditer Y_TICK_TEXT_RE svg_text →
  float (group m 1) = None ∨ float (group m 2) = None →
  ∃ msg, _extract_ticks float svg_text = Raise (ValueError msg).
Proof.
  intros Hin Hbad.
  assert (Hm : ∃ e, tick_of_match float m = Raise e).
  { unfold tick_of_match, float_or_raise.
    destruct (float (group m 1)); cbn [mbind result_bind]; [|eauto].
    destruct Hbad as [Hbad|Hbad]; [discriminate|]. rewrite Hbad.
    cbn [mbind result_bind]. eauto. }
  unfold _extract_ticks.
  destruct (list_comprehension (tick_of_match float)
              (finditer X_TICK_TEXT_RE svg_text)) as [xt|e] eqn:Hx.
  - destruct Hin as [Hin|Hin].
    { destruct (list_comprehension_raises _ _ _ Hin Hm) as (_ & e & _ & _ & He).
      congruence. }
    destruct (list_comprehension_raises _ _ _ Hin Hm) as (y & e & _ & Hy & He).
    rewrite He. cbn [mbind result_bind].
    destruct (tick_of_match_raises _ _ _ Hy) as [msg ->]. eauto.
  - cbn [mbind result_bind].
    destruct (list_comprehension_Raise_inv _ _ _ Hx) as (y & _ & Hy).
    destruct (tick_of_match_raises _ _ _ Hy) as [msg ->]. eauto.
Qed.


Lemma extract_ticks_bad_label_witness :
  ∃ msg, _extract_ticks float_decimal bad_label_svg = Raise (ValueError msg).
Proof.
  apply (extract_ticks_bad_label float_decimal bad_label_svg ["500"; "1.2.3"]).
  - left. vm_compute. right. left.
  - right. vm_compute. reflexivity.
Defined.

(** *** The marker *)

(** X10.  Without a polygon of the marker's fill colour [_extract_star_xy]
    raises that the star is not found; with such a polygon whose points hold
    no usable vertex it raises that there are no points. *)
Theorem extract_star_errors (float : string → option R) (svg_text : string) :
  (search STAR_POLY_RE svg_text = None →
   _extract_star_xy float svg_text
   = Raise (ValueError "Star polygon not found"))
  ∧ (∀ m, search STAR_POLY_RE svg_text = Some m →
          usable_vertices float (group m 1) = [] →
          _extract_star_xy float svg_text = Raise (ValueError "No points")).
Proof.
  split.
  - apply extract_star_missing.
  - intros m. apply extract_star_no_vertex.
Qed.

(** *** File names and keys *)

Ltac lit_step H s :=
  destruct s as [|? s]; cbn [match_at chr_eq] in H; [discriminate H|];
  match type of H with
  | (if Ascii.eqb ?c ?d then _ else _) = _ =>
      let E := fresh "E" in
      destruct (Ascii.eqb c d) eqn:E; [|discriminate H];
      apply Ascii.eqb_eq in E; subst d
  end.

Ltac digit_step H s :=
  destruct s as [|? s]; [discriminate H|];
  match type of H with
  | (if isdigit ?d then _ else _) = _ =>
      let E := fresh "D" in
      destruct (isdigit d) eqn:E; [|discriminate H]
  end.

(** What the pattern of the file names matches at the start of a text. *)
Lemma step_match_inv (s rest : string) (st : mstate) :
  match_at false (atoms STEP_RE) s mstate0 = Some (st, rest) →
  ∃ c1 c2 c3,
    isdigit c1 = true ∧ isdigit c2 = true ∧ isdigit c3 = true
    ∧ s = "_step_" ++ String c1 (String c2 (String c3 ".svg")) ++ rest
    ∧ (rest = "" ∨ rest = String "010" "")
    ∧ groups st = [String c1 (String c2 (String c3 ""))].
Proof.
  intros H. unfold STEP_RE in H.
  cbn [atoms lit map list_ascii_of_string app] in H.
  do 6 lit_step H s.
  cbn [match_at] in H.
  do 3 digit_step H s.
  cbn [match_at] in H.
  do 4 lit_step H s.
  cbn [match_at] in H.
  destruct s as [|c [|c' s]].
  - injection H as <- <-. exists a0, a1, a2. repeat split; auto.
  - destruct (Ascii.eqb c "010") eqn:E; [|discriminate H].
    apply Ascii.eqb_eq in E. subst c.
    injection H as <- <-. exists a0, a1, a2. repeat split; auto.
  - discriminate H.
Qed.

Lemma step_match_digits (c1 c2 c3 : ascii) :
  isdigit c1 = true → isdigit c2 = true → isdigit c3 = true →
  match_at false (atoms STEP_RE)
    ("_step_" ++ String c1 (String c2 (String c3 ".svg"))) mstate0
  = Some ({| groups := [String c1 (String c2 (String c3 ""))];
             opened := None |}, "").
Proof.
  intros D1 D2 D3. cbv [String.append]. cbn -[isdigit].
  rewrite D1, D2, D3. reflexivity.
Qed.

Lemma search_step_inv (n : string) (m : list string) :
  search STEP_RE n = Some m →
  ∃ pre c1 c2 c3 rest,
    isdigit c1 = true ∧ isdigit c2 = true ∧ isdigit c3 = true
    ∧ n = pre ++ "_step_" ++ String c1 (String c2 (String c3 ".svg")) ++ rest
    ∧ (rest = "" ∨ rest = String "010" "")
    ∧ m = [String c1 (String c2 (String c3 ""))].
Proof.
  induction n as [|c n IH]; intros H.
  - cbn in H. discriminate.
  - cbn [search] in H. change (ignorecase STEP_RE) with false in H.
    destruct (match_at false (atoms STEP_RE) (String c n) mstate0)
      as [[st rest]|] eqn:Hm.
    + injection H as <-.
      destruct (step_match_inv _ _ _ Hm)
        as (c1 & c2 & c3 & D1 & D2 & D3 & Hs & Hrest & Hg).
      exists "", c1, c2, c3, rest. repeat split; auto.
    + destruct (IH H)
        as (pre & c1 & c2 & c3 & rest & D1 & D2 & D3 & Hs & Hr & Hg).
      exists (String c pre), c1, c2, c3, rest. repeat split; auto.
      rewrite Hs. reflexivity.
Qed.

Lemma string_length_app (s t : string) :
  String.length (s ++ t) = (String.length s + String.length t)%nat.
Proof.
  induction s as [|c s IH]; [reflexivity|].
  change (String c s ++ t) with (String c (s ++ t)). simpl. rewrite IH.
  reflexivity.
Qed.

Lemma isdigit_code (c : ascii) :
  isdigit c = true → (48 <= code c <= 57)%N.
Proof.
  unfold isdigit. intros H. apply andb_true_iff in H as [H1 H2].
  apply N.leb_le in H1, H2. split; assumption.
Qed.

Lemma int_of_three_digits (c1 c2 c3 : ascii) :
  isdigit c1 = true → isdigit c2 = true → isdigit c3 = true →
  int_of_digits (String c1 (String c2 (String c3 "")))
  = (100 * (code c1 - 48) + 10 * (code c2 - 48) + (code c3 - 48))%N
  ∧ (int_of_digits (String c1 (String c2 (String c3 ""))) < 1000)%N.
Proof.
  intros D1 D2 D3.
  apply isdigit_code in D1, D2, D3.
  unfold int_of_digits. cbn [list_ascii_of_string fold_left].
  split; lia.
Qed.

(** X11.  A name that ends in [_step_], three digits and [.svg] is stored
    under the number the three digits read, written without leading zeros,
    whatever stands before. *)
Theorem frame_key_of_step_name (pre text : string) (c1 c2 c3 : ascii) :
  isdigit c1 = true → isdigit c2 = true → isdigit c3 = true →
  frame_key {| name := pre ++ "_step_" ++ String c1 (String c2 (String c3 ".svg"));
               read_text := text |}
  = Some (str (100 * (code c1 - 48) + 10 * (code c2 - 48) + (code c3 - 48))%N).
Proof.
  intros D1 D2 D3. unfold frame_key. cbn [name].
  assert (Hs : search STEP_RE
                 (pre ++ "_step_" ++ String c1 (String c2 (String c3 ".svg")))
               = Some [String c1 (String c2 (String c3 ""))]).
  { induction pre as [|c pre IH].
    - change ("" ++ ?t) with t. unfold search at 1.
      destruct ("_step_" ++ String c1 (String c2 (String c3 ".svg"))) eqn:Hn;
        [discriminate|].
      rewrite <- Hn. change (ignorecase STEP_RE) with false.
      rewrite (step_match_digits c1 c2 c3 D1 D2 D3). reflexivity.
    - change (String c pre ++ ?t) with (String c (pre ++ t)).
      cbn [search]. change (ignorecase STEP_RE) with false.
      destruct (match_at false (atoms STEP_RE)
                  (String c (pre ++ "_step_"
                             ++ String c1 (String c2 (String c3 ".svg"))))
                  mstate0) as [[st rest]|] eqn:Hm; [|exact IH].
      exfalso.
      destruct (step_match_inv _ _ _ Hm)
        as (d1 & d2 & d3 & _ & _ & _ & Heq & Hrest & _).
      pose proof (f_equal String.length Heq) as Hlen.
      cbn [String.length] in Hlen.
      rewrite !string_length_app in Hlen. cbn [String.length] in Hlen.
      destruct Hrest as [->| ->]; cbn [String.length] in Hlen; [lia|].
      destruct pre as [|c' pre]; [|cbn [String.length] in Hlen; lia].
      cbv [String.append] in Heq. discriminate Heq. }
  rewrite Hs. cbn [mbind option_bind group nth Nat.sub].
  destruct (int_of_three_digits c1 c2 c3 D1 D2 D3) as [-> _]. reflexivity.
Qed.

Lemma frame_key_of_step_name_witness :
  frame_key {| name := "expected_info_gain" ++ "_step_"
                       ++ String "0" (String "0" (String "7" ".svg"));
               read_text := "" |}
  = Some (str (100 * (code "0" - 48) + 10 * (code "0" - 48) + (code "7" - 48))%N).
Proof.
  apply (frame_key_of_step_name "expected_info_gain" "" "0" "0" "7");
    reflexivity.
Defined.

Lemma frame_key_number (svg : svg_file) (k : string) :
  frame_key svg = Some k → ∃ n, (n < 1000)%N ∧ k = str n.
Proof.
  unfold frame_key. intros H.
  destruct (search STEP_RE (name svg)) as [m|] eqn:Hm; [|discriminate].
  cbn [mbind option_bind] in H. injection H as <-.
  destruct (search_step_inv _ _ Hm)
    as (pre & c1 & c2 & c3 & rest & D1 & D2 & D3 & _ & _ & ->).
  cbn [group nth Nat.sub].
  destruct (int_of_three_digits c1 c2 c3 D1 D2 D3) as [_ Hlt].
  eexists. split; [exact Hlt|reflexivity].
Qed.

(** *** What a run writes *)

Section Runs.
Variable float : string → option R.

Lemma for_svgs_keys (l : list svg_file) (mapping mapping' : gmap string star) :
  for_svgs float l mapping = Return mapping' →
  ∀ k, is_Some (mapping' !! k) →
       is_Some (mapping !! k) ∨ ∃ s, s ∈ l ∧ frame_key s = Some k.
Proof.
  revert mapping. induction l as [|s l IH]; intros mapping Hrun k Hk.
  - simpl in Hrun. injection Hrun as <-. left. exact Hk.
  - simpl in Hrun. rewrite loop_body_spec in Hrun.
    destruct (frame_key s) as [ks|] eqn:Hks.
    + destruct (recovered float s) as [v|e]; [|discriminate].
      cbn [mbind result_bind] in Hrun.
      destruct (IH _ Hrun k Hk) as [H|(t & Ht & Hkt)].
      * apply lookup_insert_is_Some in H as [<-|[_ H]].
        -- right. exists s. split; [left|exact Hks].
        -- left. exact H.
      * right. exists t. split; [right; exact Ht|exact Hkt].
    + cbn [mbind result_bind] in Hrun.
      destruct (IH _ Hrun k Hk) as [H|(t & Ht & Hkt)]; [left; exact H|].
      right. exists t. split; [right; exact Ht|exact Hkt].
Qed.

Lemma for_svgs_size (l : list svg_file) (mapping mapping' : gmap string star) :
  for_svgs float l mapping = Return mapping' →
  (size mapping' <= size mapping + length l)%nat.
Proof.
  revert mapping. induction l as [|s l IH]; intros mapping Hrun.
  - simpl in Hrun. injection Hrun as <-. simpl. lia.
  - simpl in Hrun. rewrite loop_body_spec in Hrun.
    destruct (frame_key s) as [ks|].
    + destruct (recovered float s) as [v|e]; [|discriminate].
      cbn [mbind result_bind] in Hrun. specialize (IH _ Hrun).
      assert (Hins : (size (<[ks := v]> mapping) <= S (size mapping))%nat).
      { destruct (mapping !! ks) eqn:Hl.
        - rewrite map_size_insert_Some by eauto. lia.
        - rewrite map_size_insert_None by exact Hl. lia. }
      simpl. lia.
    + cbn [mbind result_bind] in Hrun. specialize (IH _ Hrun). simpl. lia.
Qed.

(** X12.  A run that returns has status 0, prints the size of the mapping
    it writes, and writes at most one entry per file; every key it writes is
    a number below 1000 in decimal, the step index of one of the files. *)
Theorem main_writes_step_indexes (fs : files) (r : run) :
  main float fs = Return r →
  exit_status r = 0%Z
  ∧ entries_printed r = size (written r)
  ∧ (entries_printed r <= length (svgs fs))%nat
  ∧ ∀ k, is_Some (written r !! k) →
         ∃ n s, (n < 1000)%N ∧ k = str n
                ∧ s ∈ svgs fs ∧ frame_key s = Some k.
Proof.
  unfold main. destruct (plots_dir_exists fs); [|discriminate].
  cbn [negb]. destruct (for_svgs float (svgs fs) ∅) as [mapping|e] eqn:Hrun;
    [|discriminate].
  cbn [mbind result_bind]. intros [= <-]. cbn [exit_status entries_printed written].
  split; [reflexivity|]. split; [reflexivity|]. split.
  - pose proof (for_svgs_size _ _ _ Hrun) as Hsize.
    rewrite map_size_empty in Hsize. exact Hsize.
  - intros k Hk.
    destruct (for_svgs_keys _ _ _ Hrun k Hk) as [H|(s & Hs & Hks)].
    { rewrite lookup_empty in H. destruct H as [? H]. discriminate. }
    destruct (frame_key_number s k Hks) as (n & Hn & ->).
    exists n, s. repeat split; assumption.
Qed.

(** The loop passes over the files whose name carries no step index. *)
Lemma for_svgs_filter (l : list svg_file) (mapping : gmap string star) :
  for_svgs float (filter (λ s, is_Some (frame_key s)) l) mapping
  = for_svgs float l mapping.
Proof.
  revert mapping. induction l as [|s l IH]; intros mapping; [reflexivity|].
  destruct (decide (is_Some (frame_key s))) as [Hs|Hs].
  - rewrite filter_cons_True by exact Hs. simpl.
    destruct (loop_body float mapping s); cbn [mbind result_bind];
      [apply IH|reflexivity].
  - rewrite filter_cons_False by exact Hs. simpl.
    rewrite loop_body_spec.
    destruct (frame_key s) as [k|]; [exfalso; apply Hs; eauto|].
    cbn [mbind result_bind]. apply IH.
Qed.

(** X13.  Files whose name carries no step index do not count, as long as
    they do not decide which glob [main] uses: a directory without them,
    where each glob finds the files it found before that carry a step index,
    gives the same result, the same exception or the same mapping, count
    and status, when the glob of the series found nothing before or still
    finds a file. *)
Theorem main_passes_over_other_names (fs fs' : files) :
  plots_dir_exists fs' = plots_dir_exists fs →
  glob_series fs' = filter (λ s, is_Some (frame_key s)) (glob_series fs) →
  glob_any fs' = filter (λ s, is_Some (frame_key s)) (glob_any fs) →
  glob_series fs = [] ∨ glob_series fs' ≠ [] →
  main float fs' = main float fs.
Proof.
  intros Hdir Hseries Hany Hglob.
  assert (Hsvgs : svgs fs' = filter (λ s, is_Some (frame_key s)) (svgs fs)).
  { unfold svgs. destruct (glob_series fs) as [|s l] eqn:Hs.
    - rewrite Hseries. exact Hany.
    - destruct Hglob as [Hglob|Hglob]; [discriminate Hglob|].
      destruct (glob_series fs') as [|s' l']; [contradiction|exact Hseries]. }
  unfold main. rewrite Hdir, Hsvgs, for_svgs_filter. reflexivity.
Qed.

(** With distinct keys and no failure, the entry of each key is the record
    of the one artifact that carries it. *)
Lemma for_svgs_lookup_NoDup (l : list svg_file) (mapping' : gmap string star)
    (k : string) :
  for_svgs float l ∅ = Return mapping' →
  NoDup (omap frame_key l) →
  mapping' !! k
  = match list_find (λ s, frame_key s = Some k) l with
    | Some (_, s) =>
        match recovered float s with
        | Return v => Some v
        | Raise _ => None
        end
    | None => None
    end.
Proof.
  intros Hrun Hnd.
  destruct (list_find (λ s, frame_key s = Some k) l) as [[i s]|] eqn:Hfind.
  - apply list_find_Some in Hfind as (Hi & Hks & _).
    apply list_elem_of_split_length in Hi as (before & after & -> & _).
    assert (Hafter : ∀ t, t ∈ after → frame_key t ≠ Some k).
    { intros t Ht Hkt.
      rewrite omap_app in Hnd. apply NoDup_app in Hnd as (_ & _ & Hnd).
      change (omap frame_key (s :: after))
        with (match frame_key s with
              | Some y => y :: omap frame_key after
              | None => omap frame_key after
              end) in Hnd.
      rewrite Hks in Hnd.
      apply NoDup_cons in Hnd as [Hnot _]. apply Hnot.
      apply list_elem_of_omap. exists t. split; assumption. }
    destruct (recovered float s) as [v|e] eqn:Hv.
    + exact (for_svgs_lookup_last float _ _ _ _ _ _ _ Hrun Hks Hv Hafter).
    + exfalso. rewrite for_svgs_app in Hrun.
      destruct (for_svgs float before ∅) as [m1|e1]; [|discriminate].
      cbn [mbind result_bind for_svgs] in Hrun.
      rewrite loop_body_spec, Hks, Hv in Hrun. discriminate.
  - rewrite (for_svgs_lookup_other float l ∅ mapping' k Hrun).
    + apply lookup_empty.
    + intros t Ht Hkt.
      apply list_find_None in Hfind. rewrite Forall_forall in Hfind.
      exact (Hfind t Ht Hkt).
Qed.

Lemma frame_key_unique (l : list svg_file) (s t : svg_file) (k : string) :
  NoDup (omap frame_key l) → s ∈ l → t ∈ l →
  frame_key s = Some k → frame_key t = Some k → s = t.
Proof.
  induction l as [|u l IH]; intros Hnd Hs Ht Hks Hkt; [inversion Hs|].
  change (omap frame_key (u :: l))
    with (match frame_key u with
          | Some y => y :: omap frame_key l
          | None => omap frame_key l
          end) in Hnd.
  apply elem_of_cons in Hs as [->|Hs]; apply elem_of_cons in Ht as [->|Ht].
  - reflexivity.
  - exfalso. rewrite Hks in Hnd. apply NoDup_cons in Hnd as [Hnot _].
    apply Hnot. apply list_elem_of_omap. exists t. split; assumption.
  - exfalso. rewrite Hkt in Hnd. apply NoDup_cons in Hnd as [Hnot _].
    apply Hnot. apply list_elem_of_omap. exists s. split; assumption.
  - apply IH; try assumption.
    destruct (frame_key u); [apply NoDup_cons in Hnd as [_ Hnd]|]; exact Hnd.
Qed.

(** X14.  When the step indexes of the files are distinct and no extraction
    fails, the order of the files does not matter: the run over any
    permutation of them returns the same mapping, count and status. *)
Theorem main_order_irrelevant (fs fs' : files) :
  plots_dir_exists fs' = plots_dir_exists fs →
  svgs fs ≡ₚ svgs fs' →
  NoDup (omap frame_key (svgs fs)) →
  (∀ s e, s ∈ svgs fs → ¬ fails float s e) →
  main float fs' = main float fs.
Proof.
  intros Hdir Hperm Hnd Hok. unfold main. rewrite Hdir.
  destruct (plots_dir_exists fs); [|reflexivity]. cbn [negb].
  assert (Hok' : ∀ s e, s ∈ svgs fs' → ¬ fails float s e).
  { intros s e Hs. apply Hok. rewrite Hperm. exact Hs. }
  assert (Hnd' : NoDup (omap frame_key (svgs fs'))) by (rewrite <- Hperm; exact Hnd).
  destruct (for_svgs_returns float (svgs fs) ∅ Hok) as (m & Hm & _).
  destruct (for_svgs_returns float (svgs fs') ∅ Hok') as (m' & Hm' & _).
  rewrite Hm, Hm'. cbn [mbind result_bind].
  assert (Heq : m' = m).
  { apply map_eq. intros k.
    rewrite (for_svgs_lookup_NoDup _ _ k Hm Hnd).
    rewrite (for_svgs_lookup_NoDup _ _ k Hm' Hnd').
    destruct (list_find (λ s, frame_key s = Some k) (svgs fs))
      as [[i s]|] eqn:Hf;
    destruct (list_find (λ s, frame_key s = Some k) (svgs fs'))
      as [[i' s']|] eqn:Hf'.
    - apply list_find_Some in Hf as (Hi & Hks & _).
      apply list_find_Some in Hf' as (Hi' & Hks' & _).
      apply list_elem_of_lookup_2 in Hi, Hi'. rewrite <- Hperm in Hi'.
      rewrite (frame_key_unique _ _ _ _ Hnd Hi' Hi Hks' Hks). reflexivity.
    - exfalso. apply list_find_Some in Hf as (Hi & Hks & _).
      apply list_elem_of_lookup_2 in Hi. rewrite Hperm in Hi.
      apply list_find_None in Hf'. rewrite Forall_forall in Hf'.
      exact (Hf' s Hi Hks).
    - exfalso. apply list_find_Some in Hf' as (Hi' & Hks' & _).
      apply list_elem_of_lookup_2 in Hi'. rewrite <- Hperm in Hi'.
      apply list_find_None in Hf. rewrite Forall_forall in Hf.
      exact (Hf s' Hi' Hks').
    - reflexivity. }
  rewrite Heq. reflexivity.
Qed.

End Runs.

Lemma named_frames_run :
  main float_decimal named_frames
  = Return {| written := <["2" := {| x1 := -0.5; x2 := 1.5 |}]>
                           (<["1" := {| x1 := 0; x2 := 1 |}]> ∅);
              entries_printed := 2;
              exit_status := 0 |}.
Proof.
  rewrite main_for_svgs by reflexivity.
  change (svgs named_frames) with
    [ {| name := "a_step_001.svg";
         read_text := frame_svg "300,240 310,255 290,255" |};
      {| name := "a_step_002.svg"; read_text := frame_svg "200,150" |} ].
  cbn [for_svgs]. rewrite !loop_body_spec.
  assert (Ha : ∀ t, frame_key {| name := "a_step_001.svg"; read_text := t |}
                    = Some "1") by (intros t; vm_compute; reflexivity).
  assert (Hb : ∀ t, frame_key {| name := "a_step_002.svg"; read_text := t |}
                    = Some "2") by (intros t; vm_compute; reflexivity).
  rewrite Ha, recovered_frame. cbn [mbind result_bind].
  rewrite loop_body_spec, Hb, recovered_frame_left. cbn [mbind result_bind].
  rewrite map_size_insert_None, map_size_insert_None, map_size_empty;
    [reflexivity|apply lookup_empty|].
  rewrite lookup_insert_ne by discriminate. apply lookup_empty.
Qed.

Lemma main_writes_step_indexes_witness :
  ∃ r, main float_decimal named_frames = Return r
       ∧ exit_status r = 0%Z
       ∧ entries_printed r = size (written r)
       ∧ (entries_printed r <= length (svgs named_frames))%nat
       ∧ ∀ k, is_Some (written r !! k) →
              ∃ n s, (n < 1000)%N ∧ k = str n
                     ∧ s ∈ svgs named_frames ∧ frame_key s = Some k.
Proof.
  eexists. split; [exact named_frames_run|].
  exact (main_writes_step_indexes float_decimal named_frames _ named_frames_run).
Defined.

Lemma main_passes_over_other_names_witness :
  main float_decimal named_frames = main float_decimal mixed_frames.
Proof.
  apply (main_passes_over_other_names float_decimal mixed_frames named_frames).
  - reflexivity.
  - reflexivity.
  - vm_compute. reflexivity.
  - left. reflexivity.
Defined.

(** The proviso of the glob is needed: the only file of the series carries
    no step index, so [main] reads it alone and writes nothing; without it
    the second glob is used, and the file it finds is written. *)
Lemma glob_choice_matters :
  glob_series unindexed_series_removed
  = filter (λ s, is_Some (frame_key s)) (glob_series unindexed_series)
  ∧ glob_any unindexed_series_removed
    = filter (λ s, is_Some (frame_key s)) (glob_any unindexed_series)
  ∧ main float_decimal unindexed_series
    = Return {| written := ∅; entries_printed := 0; exit_status := 0 |}
  ∧ main float_decimal unindexed_series_removed
    = Return {| written := <["1" := {| x1 := -0.5; x2 := 1.5 |}]> ∅;
                entries_printed := 1;
                exit_status := 0 |}.
Proof.
  split; [vm_compute; reflexivity|]. split; [vm_compute; reflexivity|].
  assert (Ha : ∀ t, frame_key {| name := "expected_info_gain_step_abc.svg";
                                 read_text := t |} = None)
    by (intros t; vm_compute; reflexivity).
  assert (Hb : ∀ t, frame_key {| name := "other_step_001.svg"; read_text := t |}
                    = Some "1") by (intros t; vm_compute; reflexivity).
  split.
  - rewrite main_for_svgs by reflexivity.
    change (svgs unindexed_series) with
      [ {| name := "expected_info_gain_step_abc.svg";
           read_text := no_ticks_svg |} ].
    cbn [for_svgs]. rewrite loop_body_spec, Ha. cbn [mbind result_bind].
    rewrite map_size_empty. reflexivity.
  - rewrite main_for_svgs by reflexivity.
    change (svgs unindexed_series_removed) with
      [ {| name := "other_step_001.svg"; read_text := frame_svg "200,150" |} ].
    cbn [for_svgs]. rewrite loop_body_spec, Hb, recovered_frame_left.
    cbn [mbind result_bind].
    rewrite map_size_insert_None, map_size_empty; [reflexivity|].
    apply lookup_empty.
Qed.

Lemma main_order_irrelevant_witness :
  main float_decimal swapped_frames = main float_decimal named_frames.
Proof.
  apply (main_order_irrelevant float_decimal named_frames swapped_frames).
  - reflexivity.
  - apply Permutation_swap.
  - vm_compute. apply NoDup_cons. split; [|apply NoDup_singleton].
    intros H. apply list_elem_of_singleton in H. discriminate H.
  - intros s e Hs [_ He].
    change (svgs named_frames) with
      [ {| name := "a_step_001.svg";
           read_text := frame_svg "300,240 310,255 290,255" |};
        {| name := "a_step_002.svg"; read_text := frame_svg "200,150" |} ] in Hs.
    apply elem_of_cons in Hs as [->|Hs].
    { rewrite recovered_frame in He. discriminate. }
    apply list_elem_of_singleton in Hs as ->.
    rewrite recovered_frame_left in He. discriminate.
Defined.

(** *** White space between the points *)

(** The non-empty pieces of a split, read directly: [cur] is the piece being
    read. *)
Definition emit (cur : string) : list string :=
  if decide (cur = "") then [] else [cur].

Fixpoint words_go (s : string) (cur : string) : list string :=
  match s with
  | EmptyString => emit cur
  | String c s' =>
      if isspace c then (emit cur ++ words_go s' "")%list
      else words_go s' (cur ++ String c "")
  end.

Definition nonempty (t : string) : Prop := t ≠ "".

Lemma filter_split_words (s cur : string) (in_run : bool) :
  (in_run = true → cur = "") →
  filter nonempty (re_split_ws_go s cur in_run)
  = (if in_run then words_go s "" else words_go s cur).
Proof.
  revert cur in_run. induction s as [|c s IH]; intros cur in_run Hrun.
  - cbn [re_split_ws_go words_go]. unfold emit, nonempty.
    destruct in_run.
    + rewrite (Hrun eq_refl). reflexivity.
    + destruct (decide (cur = "")) as [->|Hne]; [reflexivity|].
      rewrite filter_cons_True by exact Hne. reflexivity.
  - cbn [re_split_ws_go words_go]. destruct (isspace c) eqn:Hc.
    + destruct in_run.
      * rewrite (IH cur true Hrun). reflexivity.
      * rewrite filter_cons, (IH "" true (λ _, eq_refl)).
        unfold emit, nonempty.
        destruct (decide (cur = "")) as [->|Hne]; [reflexivity|].
        destruct (decide (cur ≠ "")); [reflexivity|contradiction].
    + rewrite (IH _ false) by discriminate.
      destruct in_run; [rewrite (Hrun eq_refl)|]; reflexivity.
Qed.

Lemma words_go_space (s1 t cur : string) (c : ascii) :
  isspace c = true →
  words_go (s1 ++ String c t) cur = (words_go s1 cur ++ words_go t "")%list.
Proof.
  intros Hc. revert cur. induction s1 as [|c' s1 IH]; intros cur.
  - change ("" ++ String c t) with (String c t).
    cbn [words_go]. rewrite Hc. reflexivity.
  - change (String c' s1 ++ String c t) with (String c' (s1 ++ String c t)).
    cbn [words_go]. destruct (isspace c').
    + rewrite IH, app_assoc. reflexivity.
    + apply IH.
Qed.

Lemma words_go_lstrip (s : string) : words_go (lstrip s) "" = words_go s "".
Proof.
  induction s as [|c s IH]; [reflexivity|].
  cbn [lstrip words_go]. destruct (isspace c) eqn:Hc; [exact IH|].
  cbn [words_go]. rewrite Hc. reflexivity.
Qed.

Lemma words_go_rstrip (s cur : string) :
  words_go (rstrip s) cur = words_go s cur.
Proof.
  revert cur. induction s as [|c s IH]; intros cur; [reflexivity|].
  cbn [rstrip]. destruct (rstrip s) as [|c' t] eqn:Hr.
  - destruct (isspace c) eqn:Hc.
    + cbn [words_go]. rewrite Hc, <- IH. cbn [words_go].
      unfold emit at 2. cbn. rewrite app_nil_r. reflexivity.
    + cbn [words_go]. rewrite Hc, <- IH. reflexivity.
  - cbn [words_go]. destruct (isspace c); rewrite <- IH; reflexivity.
Qed.

Lemma usable_vertices_words (float : string → option R) (s : string) :
  usable_vertices float s = omap (usable_vertex float) (words_go s "").
Proof.
  unfold usable_vertices, re_split_ws.
  rewrite <- (words_go_lstrip s), <- (words_go_rstrip (lstrip s)).
  fold (strip s).
  rewrite <- (filter_split_words (strip s) "" false) by discriminate.
  induction (re_split_ws_go (strip s) "" false) as [|t l IH]; [reflexivity|].
  destruct (decide (t = "")) as [->|Hne].
  - rewrite filter_cons_False by (intros H; apply H; reflexivity).
    rewrite <- IH. reflexivity.
  - rewrite filter_cons_True by exact Hne.
    change (omap (usable_vertex float) (t :: ?k))
      with (match usable_vertex float t with
            | Some y => y :: omap (usable_vertex float) k
            | None => omap (usable_vertex float) k
            end).
    rewrite IH. reflexivity.
Qed.

(** X15.  The points may be separated by any white space: the vertices read
    from two texts joined by a white-space character are the vertices of the
    first followed by the vertices of the second. *)
Theorem parse_points_joined (float : string → option R) (s1 s2 : string)
    (c : ascii) :
  isspace c = true →
  _parse_points float (s1 ++ String c s2)
  = (_parse_points float s1 ++ _parse_points float s2)%list.
Proof.
  intros Hc. rewrite !parse_points_usable, !usable_vertices_words.
  rewrite (words_go_space s1 s2 "" c Hc). apply omap_app.
Qed.

Lemma parse_points_joined_witness :
  _parse_points float_decimal ("0,0  2,0" ++ String "010" "  1,2 ")
  = (_parse_points float_decimal "0,0  2,0"
     ++ _parse_points float_decimal "  1,2 ")%list.
Proof.
  apply (parse_points_joined float_decimal "0,0  2,0" "  1,2 " "010").
  reflexivity.
Defined.

End ExtractStarExtra.

(** ** Further properties of the figure synthesis *)

Module PartitionFigureExtra.
Import Py PyProofs PartitionFigure PartitionFigureProofs.

Ltac unfold_layout :=
  unfold gx, gy, ux, uy, by_ in *;
  unfold left_x0, right_x0, y_bar0, bar_x0, bar_w in *;
  unfold y0, plot_w, bar_gap, y_max_bar, bar_plot_h, top_plot_h, middle_gap,
    gap, width, height, margin_left, margin_right, margin_top, margin_bottom,
    x_min, x_max, y_max_gauss, y_max_unif in *.

(** *** [clamp] *)

Lemma clamp_bounds (value low high : R) :
  low <= high → low <= clamp value low high <= high.
Proof.
  intros Hlh. unfold clamp, Rmax, Rmin.
  destruct (Rle_dec high value), (Rle_dec low high), (Rle_dec low value); lra.
Qed.

(** X16.  With [low <= high] the clamped value lies between [low] and
    [high], and a value already between them is returned as it is. *)
Theorem clamp_within (value low high : R) :
  low <= high →
  low <= clamp value low high <= high
  ∧ (low <= value <= high → clamp value low high = value).
Proof.
  intros Hlh. unfold clamp, Rmax, Rmin.
  destruct (Rle_dec high value), (Rle_dec low high), (Rle_dec low value);
    split; try lra; intros; lra.
Qed.

Lemma clamp_within_witness :
  0 <= clamp 0.25 0 0.18 <= 0.18
  ∧ (0 <= 0.25 <= 0.18 → clamp 0.25 0 0.18 = 0.25).
Proof. apply (clamp_within 0.25 0 0.18). lra. Defined.

(** *** The panels *)

(** X17.  In exact arithmetic (floats idealised as reals) the horizontal
    transforms are strictly increasing, and every transform sends the range of its axis into its panel: [x_min .. x_max]
    between the left and the right edge of the left panel, [0 .. 1] between
    the edges of the right panel, and the vertical ranges between the top and
    the bottom of their panels.  The left panel ends before the right one
    begins. *)
Theorem transforms_into_panels :
  (∀ x x', x < x' → gx x < gx x' ∧ ux x < ux x')
  ∧ (∀ x, x_min <= x <= x_max → left_x0 <= gx x <= left_x0 + plot_w)
  ∧ (∀ u, 0 <= u <= 1 → right_x0 <= ux u <= right_x0 + plot_w)
  ∧ (∀ y, 0 <= y <= y_max_gauss → y0 <= gy y <= y0 + top_plot_h)
  ∧ (∀ y, 0 <= y <= y_max_unif → y0 <= uy y <= y0 + top_plot_h)
  ∧ (∀ y, 0 <= y <= y_max_bar → y_bar0 <= by_ y <= y_bar0 + bar_plot_h)
  ∧ left_x0 + plot_w < right_x0
  ∧ right_x0 + plot_w <= width
  ∧ y0 + top_plot_h < y_bar0
  ∧ y_bar0 + bar_plot_h <= height.
Proof.
  assert (Hgx : ∀ x, gx x = 64 + (x + 3) * (399 / 6)).
  { intros x. unfold_layout. replace (3.0 - -3.0) with 6 by lra. lra. }
  assert (Hux : ∀ u, ux u = 541 + u * 399).
  { intros u. unfold_layout. lra. }
  split; [intros x x' Hlt; rewrite !Hgx, !Hux; lra|].
  split; [intros x; rewrite Hgx; unfold_layout; lra|].
  split; [intros u; rewrite Hux; unfold_layout; lra|].
  unfold_layout. cbv zeta. repeat split; intros; lra.
Qed.

(** *** The bars *)

Lemma per_bar_step (n : nat) :
  (0 < n)%nat →
  INR n * (per_bar n + bar_gap) = bar_w + bar_gap.
Proof.
  intros Hn. unfold per_bar.
  assert (H : INR n ≠ 0) by (apply not_0_INR; lia).
  field. exact H.
Qed.

Lemma bar_rects_lookup (probs : list R) (idx : nat) (p : R) :
  probs !! idx = Some p →
  bar_rects probs !! idx = Some (bar_rect (length probs) idx p).
Proof.
  intros Hp. unfold bar_rects. rewrite list_lookup_imap, Hp. reflexivity.
Qed.

(** X18.  The bars tile the width of the panel: the first bar starts at the
    left edge, each bar starts one gap after the end of the bar before it,
    all bars have the same width, and the last bar ends at the right edge. *)
Theorem bars_tile_panel (probs : list R) (idx : nat) (b : rect) :
  bar_rects probs !! idx = Some b →
  rect_width b = per_bar (length probs)
  ∧ (idx = 0%nat → rect_x b = bar_x0)
  ∧ (∀ b', bar_rects probs !! S idx = Some b' →
           rect_x b' = rect_x b + rect_width b + bar_gap)
  ∧ (S idx = length probs → rect_x b + rect_width b = bar_x0 + bar_w).
Proof.
  intros Hb. unfold bar_rects in Hb. rewrite list_lookup_imap in Hb.
  destruct (probs !! idx) as [p|] eqn:Hp; [|discriminate].
  injection Hb as <-. cbn [rect_width rect_x bar_rect].
  split; [reflexivity|]. split.
  { intros ->. simpl. lra. }
  split.
  { intros b' Hb'. unfold bar_rects in Hb'. rewrite list_lookup_imap in Hb'.
    destruct (probs !! S idx) as [q|]; [|discriminate].
    injection Hb' as <-. cbn [rect_x bar_rect]. rewrite S_INR. lra. }
  intros Hlast.
  assert (Hn : (0 < length probs)%nat) by lia.
  pose proof (per_bar_step (length probs) Hn) as Hstep.
  rewrite <- Hlast, S_INR in Hstep. rewrite <- Hlast. lra.
Qed.

Lemma bars_tile_panel_witness :
  rect_width (bar_rect 2 1 0.7) = per_bar (length [0.3; 0.7])
  ∧ (1%nat = 0%nat → rect_x (bar_rect 2 1 0.7) = bar_x0)
  ∧ (∀ b', bar_rects [0.3; 0.7] !! 2%nat = Some b' →
           rect_x b' = rect_x (bar_rect 2 1 0.7)
                       + rect_width (bar_rect 2 1 0.7) + bar_gap)
  ∧ (2%nat = length [0.3; 0.7] →
     rect_x (bar_rect 2 1 0.7) + rect_width (bar_rect 2 1 0.7)
     = bar_x0 + bar_w).
Proof.
  apply (bars_tile_panel [0.3; 0.7] 1 (bar_rect 2 1 0.7)). reflexivity.
Defined.

(** X19.  In exact arithmetic (floats idealised as reals): whatever its
    probability, a bar stands on the base line of the panel and stays inside
    it; its height is the share of the probability,
    cut to the range of the axis, in the height of the panel. *)
Theorem bar_height_clamped (n_bars idx : nat) (p : R) :
  rect_y (bar_rect n_bars idx p) + rect_height (bar_rect n_bars idx p)
  = y_bar0 + bar_plot_h
  ∧ y_bar0 <= rect_y (bar_rect n_bars idx p)
  ∧ 0 <= rect_height (bar_rect n_bars idx p) <= bar_plot_h
  ∧ rect_height (bar_rect n_bars idx p)
    = clamp p 0 y_max_bar / y_max_bar * bar_plot_h.
Proof.
  cbn [rect_y rect_height bar_rect].
  assert (Hc : 0 <= clamp p 0.0 y_max_bar <= y_max_bar).
  { replace 0.0 with 0 by lra.
    apply clamp_bounds. unfold y_max_bar. lra. }
  replace 0.0 with 0 in * by lra.
  revert Hc. generalize (clamp p 0 y_max_bar). intros c Hc.
  unfold_layout. repeat split; lra.
Qed.

(** *** The density and the curve *)

Lemma exp_le_mono (x y : R) : x <= y → exp x <= exp y.
Proof.
  intros [Hlt| ->]; [left; apply exp_increasing, Hlt|right; reflexivity].
Qed.

Lemma sqrt_2PI_bound : 2.4 < sqrt (2.0 * PI).
Proof.
  pose proof PI2_3_2 as Hpi.
  replace 2.4 with (sqrt (2.4 * 2.4)) by (apply sqrt_square; lra).
  apply sqrt_lt_1_alt. lra.
Qed.

Lemma stdnorm_pdf_bounds (x : R) :
  0 < stdnorm_pdf x ∧ stdnorm_pdf x <= stdnorm_pdf 0 ∧ stdnorm_pdf 0 < y_max_gauss.
Proof.
  pose proof sqrt_2PI_bound as Hs.
  assert (Hinv : 0 < / sqrt (2.0 * PI)) by (apply Rinv_0_lt_compat; lra).
  unfold stdnorm_pdf, Rdiv. split.
  { apply Rmult_lt_0_compat; [apply exp_pos|exact Hinv]. }
  split.
  { apply Rmult_le_compat_r; [lra|].
    apply exp_le_mono. nra. }
  replace (-0.5 * 0 * 0) with 0 by ring. rewrite exp_0. unfold y_max_gauss.
  assert (H : / sqrt (2.0 * PI) < / 2.4).
  { apply Rinv_lt_contravar; [|exact Hs]. apply Rmult_lt_0_compat; lra. }
  lra.
Qed.

(** X20.  The density is positive and even, it is greatest at 0, and its
    greatest value is below the top of the vertical axis of its panel. *)
Theorem stdnorm_pdf_shape (x : R) :
  0 < stdnorm_pdf x
  ∧ stdnorm_pdf (- x) = stdnorm_pdf x
  ∧ stdnorm_pdf x <= stdnorm_pdf 0
  ∧ stdnorm_pdf 0 < y_max_gauss.
Proof.
  destruct (stdnorm_pdf_bounds x) as (Hpos & Hle & Hmax).
  split; [exact Hpos|]. split; [|split; [exact Hle|exact Hmax]].
  unfold stdnorm_pdf.
  replace (-0.5 * - x * - x) with (-0.5 * x * x) by ring. reflexivity.
Qed.

(** X21.  The sampled curve stays inside its panel: every point of
    [gauss_points] lies between the left and the right edge and strictly
    between the top and the base line; so does every point of
    [highlight_points], the base line included. *)
Theorem curves_inside_panel :
  (∀ p, p ∈ gauss_points →
        left_x0 <= p.1 <= left_x0 + plot_w ∧ y0 < p.2 < y0 + top_plot_h)
  ∧ (∀ p, p ∈ highlight_points →
          left_x0 <= p.1 <= left_x0 + plot_w ∧ y0 < p.2 <= y0 + top_plot_h).
Proof.
  assert (Hpdf : ∀ x, y0 < gy (stdnorm_pdf x) < y0 + top_plot_h).
  { intros x. destruct (stdnorm_pdf_bounds x) as (Hpos & Hle & Hmax).
    revert Hpos Hle Hmax. generalize (stdnorm_pdf x) (stdnorm_pdf 0).
    intros v v0 Hpos Hle Hmax. unfold_layout. lra. }
  assert (Hgx : ∀ x, x_min <= x <= x_max → left_x0 <= gx x <= left_x0 + plot_w).
  { intros x Hx. unfold_layout. replace (3.0 - -3.0) with 6 by lra. lra. }
  split.
  - intros p Hp. unfold gauss_points in Hp.
    apply list_elem_of_In, in_map_iff in Hp as (i & <- & Hi).
    apply in_seq in Hi. cbn [fst snd]. split; [|apply Hpdf].
    apply Hgx.
    assert (H0 : 0 <= INR i) by apply pos_INR.
    assert (H1 : INR i <= 240).
    { replace 240 with (INR 240) by (rewrite INR_IZR_INZ; reflexivity).
      apply le_INR. lia. }
    unfold x_min, x_max. lra.
  - intros p Hp. unfold highlight_points in Hp.
    assert (Hbase : ∀ x, x_min <= x <= x_max →
               left_x0 <= (gx x, gy 0.0).1 <= left_x0 + plot_w
               ∧ y0 < (gx x, gy 0.0).2 <= y0 + top_plot_h).
    { intros x Hx. cbn [fst snd]. split; [apply Hgx, Hx|].
      unfold_layout. lra. }
    apply elem_of_app in Hp as [Hp|Hp].
    { apply list_elem_of_singleton in Hp as ->.
      apply Hbase. unfold highlight_left, x_min, x_max. lra. }
    apply elem_of_app in Hp as [Hp|Hp].
    2:{ apply list_elem_of_singleton in Hp as ->.
        apply Hbase. unfold highlight_right, x_min, x_max. lra. }
    apply list_elem_of_In, in_map_iff in Hp as (i & <- & Hi).
    apply in_seq in Hi. cbn [fst snd].
    split; [|destruct (Hpdf (highlight_left
                             + (highlight_right - highlight_left) * INR i / 80.0));
             split; lra].
    apply Hgx.
    assert (H0 : 0 <= INR i) by apply pos_INR.
    assert (H1 : INR i <= 80).
    { replace 80 with (INR 80) by (rewrite INR_IZR_INZ; reflexivity).
      apply le_INR. lia. }
    unfold highlight_left, highlight_right, x_min, x_max. lra.
Qed.

(** X22.  In exact arithmetic (floats idealised as reals) the curve is
    sampled at equal steps from the left edge of the panel to the right
    edge: the first point is at the left edge, the last at the
    right edge, and each point is a 240th of the width right of the one
    before. *)
Theorem gauss_points_evenly_spaced :
  length gauss_points = 241%nat
  ∧ fst <$> gauss_points !! 0%nat = Some left_x0
  ∧ fst <$> gauss_points !! 240%nat = Some (left_x0 + plot_w)
  ∧ ∀ i, (i < 240)%nat →
         ∃ p q, gauss_points !! i = Some p ∧ gauss_points !! S i = Some q
                ∧ q.1 - p.1 = plot_w / 240.
Proof.
  split; [reflexivity|].
  split.
  { rewrite (gauss_points_lookup 0) by lia. cbn [fmap option_fmap option_map fst].
    f_equal. unfold_layout. simpl. replace (3.0 - -3.0) with 6 by lra. lra. }
  split.
  { rewrite (gauss_points_lookup 240) by lia.
    cbn [fmap option_fmap option_map fst]. f_equal. unfold_layout.
    rewrite INR_IZR_INZ. change (Z.of_nat 240) with 240%Z.
    replace (3.0 - -3.0) with 6 by lra. lra. }
  intros i Hi. eexists. eexists.
  split; [apply gauss_points_lookup; lia|].
  split; [apply gauss_points_lookup; lia|].
  cbn [fst]. rewrite S_INR. unfold_layout.
  replace (3.0 - -3.0) with 6 by lra. lra.
Qed.

(** *** The distribution function and the bins *)

Lemma RiemannInt_bounds_eq (f : R → R) (a b c : R)
    (pr1 : Riemann_integrable f a b) (pr2 : Riemann_integrable f a c) :
  b = c → RiemannInt pr1 = RiemannInt pr2.
Proof. intros ->. apply RiemannInt_P5. Qed.

Lemma erf_odd (x : R) : erf (- x) = - erf x.
Proof.
  unfold erf.
  destruct (Rle_dec 0 x) as [Hx|Hx], (Rle_dec 0 (- x)) as [Hn|Hn].
  - assert (x = 0) as -> by lra.
    rewrite (RiemannInt_bounds_eq _ _ _ _ _ (erf_integrable 0 Hx)) by lra.
    rewrite RiemannInt_P9. lra.
  - rewrite (RiemannInt_bounds_eq _ _ _ _ _ (erf_integrable x Hx)) by lra.
    reflexivity.
  - rewrite (RiemannInt_P5 (erf_integrable (- x) Hn)
               (erf_integrable (- x) (neg_nonneg x Hx))).
    lra.
  - exfalso. lra.
Qed.

Lemma erf_integral_mono (a b : R) (Ha : 0 <= a) (Hb : 0 <= b) :
  a <= b → RiemannInt (erf_integrable a Ha) <= RiemannInt (erf_integrable b Hb).
Proof.
  intros Hab.
  assert (pr : Riemann_integrable erf_integrand a b).
  { apply continuity_implies_RiemannInt; [exact Hab|].
    intros t _. apply erf_integrand_continuity. }
  rewrite <- (RiemannInt_P26 (erf_integrable a Ha) pr (erf_integrable b Hb)).
  destruct (RiemannInt_const_bound (l := 0) (u := 1) pr Hab) as [H0 _].
  { intros t _. unfold erf_integrand. split; [left; apply exp_pos|].
    rewrite <- exp_0. apply exp_le_mono. nra. }
  lra.
Qed.

Lemma erf_nonneg (x : R) : 0 <= x → 0 <= erf x.
Proof.
  intros Hx. unfold erf. destruct (Rle_dec 0 x) as [H|H]; [|exfalso; lra].
  assert (H0 : 0 <= 0) by lra.
  pose proof (erf_integral_mono 0 x H0 H Hx) as Hm.
  rewrite RiemannInt_P9 in Hm.
  assert (Hc : 0 < 2 / sqrt PI).
  { apply Rdiv_lt_0_compat; [lra|]. apply sqrt_lt_R0, PI_RGT_0. }
  apply Rmult_le_pos; lra.
Qed.

Lemma erf_mono (x y : R) : x <= y → erf x <= erf y.
Proof.
  assert (Hc : 0 < 2 / sqrt PI).
  { apply Rdiv_lt_0_compat; [lra|]. apply sqrt_lt_R0, PI_RGT_0. }
  assert (Hpos : ∀ a b, 0 <= a → a <= b → erf a <= erf b).
  { intros a b Ha Hab. unfold erf.
    destruct (Rle_dec 0 a) as [H1|H1]; [|exfalso; lra].
    destruct (Rle_dec 0 b) as [H2|H2]; [|exfalso; lra].
    apply Rmult_le_compat_l; [lra|]. apply erf_integral_mono, Hab. }
  intros Hxy. destruct (Rle_dec 0 x) as [Hx|Hx].
  - apply Hpos; assumption.
  - destruct (Rle_dec 0 y) as [Hy|Hy].
    + pose proof (erf_nonneg y Hy). pose proof (erf_nonneg (- x)) as Hn.
      rewrite erf_odd in Hn. lra.
    + pose proof (Hpos (- y) (- x)) as Hn. rewrite !erf_odd in Hn. lra.
Qed.

Lemma sqrt_2_pos : 0 < sqrt 2.0.
Proof. apply sqrt_lt_R0. lra. Qed.

(** X23.  The distribution function is symmetric about 0,
    [stdnorm_cdf (-x) = 1 - stdnorm_cdf x], and it never decreases. *)
Theorem stdnorm_cdf_symmetric_monotone (x y : R) :
  stdnorm_cdf (- x) = 1 - stdnorm_cdf x
  ∧ (x <= y → stdnorm_cdf x <= stdnorm_cdf y).
Proof.
  pose proof sqrt_2_pos as Hs. unfold stdnorm_cdf. split.
  - replace (- x / sqrt 2.0) with (- (x / sqrt 2.0)) by (unfold Rdiv; ring).
    rewrite erf_odd. lra.
  - intros Hxy.
    assert (H : erf (x / sqrt 2.0) <= erf (y / sqrt 2.0)).
    { apply erf_mono. unfold Rdiv. apply Rmult_le_compat_r; [|exact Hxy].
      left. apply Rinv_0_lt_compat, Hs. }
    lra.
Qed.

(** X24.  For a distribution function that never decreases and has its
    values between 0 and 1, and edges in increasing order (equal neighbours
    allowed), the block that builds [probs] returns, and every probability
    is between 0 and 1: no bar has a negative height before clamping. *)
Theorem partition_probabilities_in_unit (cdf : R → R) (inner_edges : list R) :
  inner_edges ≠ [] →
  (∀ x, 0 <= cdf x <= 1) →
  (∀ x y, x <= y → cdf x <= cdf y) →
  (∀ i, (i + 1 < length inner_edges)%nat →
        nth i inner_edges 0 <= nth (i + 1) inner_edges 0) →
  ∃ ps, partition_probabilities cdf inner_edges = Return ps
        ∧ Forall (λ p, 0 <= p <= 1) ps.
Proof.
  intros Hne Hunit Hmono Hsorted.
  destruct inner_edges as [|b0 rest]; [contradiction|].
  eexists. split; [apply partition_probabilities_cons|].
  apply Forall_cons. split; [apply Hunit|].
  apply Forall_app. split.
  - apply Forall_forall. intros p Hp.
    apply list_elem_of_In, in_map_iff in Hp as (i & <- & Hi). apply in_seq in Hi.
    pose proof (Hunit (nth i (b0 :: rest) 0)).
    pose proof (Hunit (nth (i + 1) (b0 :: rest) 0)).
    pose proof (Hmono _ _ (Hsorted i ltac:(simpl; lia))).
    lra.
  - apply Forall_singleton. pose proof (Hunit (List.last (b0 :: rest) 0)). lra.
Qed.

Lemma partition_probabilities_in_unit_witness :
  ∃ ps, partition_probabilities (λ x, clamp x 0 1) [0.25; 0.5] = Return ps
        ∧ Forall (λ p, 0 <= p <= 1) ps.
Proof.
  apply (partition_probabilities_in_unit (λ x, clamp x 0 1) [0.25; 0.5]).
  - discriminate.
  - intros x. unfold clamp, Rmax, Rmin.
    destruct (Rle_dec 1 x), (Rle_dec 0 1), (Rle_dec 0 x); lra.
  - intros x y Hxy. unfold clamp, Rmax, Rmin.
    repeat destruct (Rle_dec _ _); lra.
  - intros [|[|i]] Hi; simpl in *; try lia; lra.
Defined.

(** X25.  In exact arithmetic (floats idealised as reals) the highlight is
    sampled five times as finely as the curve, on the same grid: every fifth point of the highlight on the curve, from
    the first to the last, is a point of the full curve; point [1 + 5 j] of
    [highlight_points] is point [168 + j] of [gauss_points]. *)
Theorem highlight_samples_on_curve (j : nat) :
  (j <= 16)%nat →
  highlight_points !! (1 + 5 * j)%nat = gauss_points !! (168 + j)%nat.
Proof.
  intros Hj.
  change (1 + 5 * j)%nat with (S (5 * j)).
  rewrite highlight_points_lookup by lia.
  rewrite gauss_points_lookup by lia.
  assert (Hx : highlight_left + (highlight_right - highlight_left) * INR (5 * j) / 80.0
               = x_min + (x_max - x_min) * INR (168 + j) / 240.0).
  { rewrite mult_INR, plus_INR.
    rewrite (INR_IZR_INZ 5), (INR_IZR_INZ 168).
    change (Z.of_nat 5) with 5%Z. change (Z.of_nat 168) with 168%Z.
    unfold highlight_left, highlight_right, x_min, x_max. lra. }
  rewrite Hx. reflexivity.
Qed.

Lemma highlight_samples_on_curve_witness :
  (8 <= 16)%nat ∧ highlight_points !! 41%nat = gauss_points !! 176%nat.
Proof. split; [lia|apply (highlight_samples_on_curve 8); lia]. Defined.

(** *** [xml_escape] *)

Section Escape.
#[local] Open Scope string_scope.

(** The replacement of one character. *)
Definition escape_chr (c : ascii) : string :=
  if Ascii.eqb c "&" then "&amp;"
  else if Ascii.eqb c "<" then "&lt;"
  else if Ascii.eqb c ">" then "&gt;"
  else if Ascii.eqb c dquote then "&quot;"
  else if Ascii.eqb c "'" then "&apos;"
  else String c "".

Lemma string_app_assoc (s t u : string) : (s ++ t) ++ u = s ++ (t ++ u).
Proof.
  induction s as [|c s IH]; [reflexivity|].
  change (String c ((s ++ t) ++ u) = String c (s ++ (t ++ u))).
  rewrite IH. reflexivity.
Qed.

Lemma replace_chr_app (old : ascii) (new s t : string) :
  replace_chr old new (s ++ t) = replace_chr old new s ++ replace_chr old new t.
Proof.
  induction s as [|c s IH]; [reflexivity|].
  change (String c s ++ t) with (String c (s ++ t)). cbn [replace_chr].
  destruct (Ascii.eqb c old); rewrite IH.
  - symmetry. apply string_app_assoc.
  - reflexivity.
Qed.

Lemma xml_escape_app (s t : string) :
  xml_escape (s ++ t) = xml_escape s ++ xml_escape t.
Proof. unfold xml_escape. rewrite !replace_chr_app. reflexivity. Qed.

Lemma xml_escape_chr (c : ascii) : xml_escape (String c "") = escape_chr c.
Proof.
  unfold xml_escape, escape_chr. cbn [replace_chr].
  destruct (Ascii.eqb c "&"); [reflexivity|]. cbn [replace_chr].
  destruct (Ascii.eqb c "<"); [reflexivity|]. cbn [replace_chr].
  destruct (Ascii.eqb c ">"); [reflexivity|]. cbn [replace_chr].
  destruct (Ascii.eqb c dquote); [reflexivity|]. cbn [replace_chr].
  destruct (Ascii.eqb c "'"); reflexivity.
Qed.

Lemma xml_escape_cons (c : ascii) (s : string) :
  xml_escape (String c s) = escape_chr c ++ xml_escape s.
Proof.
  change (String c s) with (String c "" ++ s).
  rewrite xml_escape_app, xml_escape_chr. reflexivity.
Qed.

(** The characters that stand for markup in the text of an element or in a
    quoted attribute. *)
Definition markup (c : ascii) : bool :=
  Ascii.eqb c "<" || Ascii.eqb c ">" || Ascii.eqb c dquote || Ascii.eqb c "'".

Definition special (c : ascii) : bool := Ascii.eqb c "&" || markup c.

Fixpoint occurs (p : ascii → bool) (s : string) : bool :=
  match s with
  | EmptyString => false
  | String c s' => p c || occurs p s'
  end.

Lemma occurs_app (p : ascii → bool) (s t : string) :
  occurs p (s ++ t) = occurs p s || occurs p t.
Proof.
  induction s as [|c s IH]; [reflexivity|].
  change (String c s ++ t) with (String c (s ++ t)). cbn [occurs].
  rewrite IH. apply orb_assoc.
Qed.

Lemma escape_chr_no_markup (c : ascii) : occurs markup (escape_chr c) = false.
Proof.
  unfold escape_chr.
  destruct (Ascii.eqb c "&") eqn:H1; [reflexivity|].
  destruct (Ascii.eqb c "<") eqn:H2; [reflexivity|].
  destruct (Ascii.eqb c ">") eqn:H3; [reflexivity|].
  destruct (Ascii.eqb c dquote) eqn:H4; [reflexivity|].
  destruct (Ascii.eqb c "'") eqn:H5; [reflexivity|].
  cbn [occurs]. unfold markup. rewrite H2, H3, H4, H5. reflexivity.
Qed.

Lemma escape_chr_plain (c : ascii) : special c = false → escape_chr c = String c "".
Proof.
  unfold special, markup, escape_chr. intros H.
  destruct (Ascii.eqb c "&"); [discriminate H|].
  destruct (Ascii.eqb c "<"); [discriminate H|].
  destruct (Ascii.eqb c ">"); [discriminate H|].
  destruct (Ascii.eqb c dquote); [discriminate H|].
  destruct (Ascii.eqb c "'"); [discriminate H|]. reflexivity.
Qed.

(** X26.  [xml_escape] works character by character: the escape of a
    concatenation is the concatenation of the escapes.  Its result holds no
    [<], [>], double quote or apostrophe, and a text without these and
    without [&] is returned as it is. *)
Theorem xml_escape_no_markup (s t : string) :
  xml_escape (s ++ t) = xml_escape s ++ xml_escape t
  ∧ occurs markup (xml_escape s) = false
  ∧ (occurs special s = false → xml_escape s = s).
Proof.
  split; [apply xml_escape_app|]. split.
  - induction s as [|c s IH]; [reflexivity|].
    rewrite xml_escape_cons, occurs_app, escape_chr_no_markup, IH. reflexivity.
  - induction s as [|c s IH]; [reflexivity|].
    cbn [occurs]. intros H. apply orb_false_iff in H as [Hc Hs].
    rewrite xml_escape_cons, (escape_chr_plain c Hc), (IH Hs). reflexivity.
Qed.

Lemma escape_chr_inj (c d : ascii) (s t : string) :
  escape_chr c ++ s = escape_chr d ++ t → c = d ∧ s = t.
Proof.
  unfold escape_chr.
  destruct (Ascii.eqb_spec c "&") as [->|Hc1];
  [|destruct (Ascii.eqb_spec c "<") as [->|Hc2];
  [|destruct (Ascii.eqb_spec c ">") as [->|Hc3];
  [|destruct (Ascii.eqb_spec c dquote) as [->|Hc4];
  [|destruct (Ascii.eqb_spec c "'") as [->|Hc5]]]]];
  (destruct (Ascii.eqb_spec d "&") as [->|Hd1];
  [|destruct (Ascii.eqb_spec d "<") as [->|Hd2];
  [|destruct (Ascii.eqb_spec d ">") as [->|Hd3];
  [|destruct (Ascii.eqb_spec d dquote) as [->|Hd4];
  [|destruct (Ascii.eqb_spec d "'") as [->|Hd5]]]]]);
  cbv [String.append]; intros H;
  try discriminate H;
  injection H; intros; subst; split; congruence.
Qed.

(** X27.  [xml_escape] loses nothing: two texts with the same escape are the
    same text. *)
Theorem xml_escape_injective (s t : string) :
  xml_escape s = xml_escape t → s = t.
Proof.
  revert t. induction s as [|c s IH]; intros [|d t] H.
  - reflexivity.
  - exfalso. rewrite xml_escape_cons in H. change (xml_escape "") with "" in H.
    unfold escape_chr in H.
    repeat (destruct (Ascii.eqb _ _); [discriminate H|]). discriminate H.
  - exfalso. rewrite xml_escape_cons in H. change (xml_escape "") with "" in H.
    unfold escape_chr in H.
    repeat (destruct (Ascii.eqb _ _); [discriminate H|]). discriminate H.
  - rewrite !xml_escape_cons in H. apply escape_chr_inj in H as [-> H].
    f_equal. apply IH, H.
Qed.

Lemma xml_escape_injective_witness :
  xml_escape "a<b" = "a&lt;b" ∧ "a<b" = "a" ++ "<b".
Proof.
  split; [reflexivity|].
  apply (xml_escape_injective "a<b" ("a" ++ "<b")). reflexivity.
Defined.

End Escape.

End PartitionFigureExtra.
